(** * mobiletto indexeddb driver: a shallow embedding of [StorageClient]

    The driver keeps every file as one record of a single IndexedDB object
    store, keyed by the file's path, and rebuilds directory listings from
    the flat key space.  This development embeds [_list], [write], [read]
    and [remove] of [StorageClient] and proves properties of them.

    Conventions of the embedding:
    - a JavaScript string is a [string]; its code units are the characters;
    - the object store is a finite map from keys to records, and [getAll]
      returns the records in ascending key order, as IndexedDB does;
    - a promise is described by the way it settles ([Resolved], [Rejected])
      or by the fact that it never does ([Pending]);
    - an operation is embedded from the point where [await this.mdb()] has
      given it the connection; how the promise of the connection settles is
      the subject of [openRequest], and a client whose connection promise
      is rejected rejects every operation with that reason before any of
      the code embedded here runs;
    - the runs described are those in which the requests and transactions
      of the operation succeed, so that the [onerror] handlers of requests
      and transactions do not run;
    - [String.prototype.localeCompare] depends on the host's collation and
      is a parameter of the listing functions. *)

From Stdlib Require Import ZArith Ascii String DecimalString.
From Stdlib.Strings Require Import Byte.
From stdpp Require Import gmap strings list fin_maps sorting.
From Equations Require Import Equations.

Open Scope string_scope.
Open Scope list_scope.
Open Scope nat_scope.

(** ** JavaScript string primitives used by the driver *)

(** [s.startsWith(searchString)] *)
Definition startsWith (s searchString : string) : bool :=
  String.prefix searchString s.

(** [s.substring(indexStart, indexEnd)]: the arguments are swapped when
    [indexStart > indexEnd] and clamped to the length of [s]. *)
Definition substring (s : string) (indexStart indexEnd : nat) : string :=
  String.substring (Nat.min indexStart indexEnd)
                   (Nat.max indexStart indexEnd - Nat.min indexStart indexEnd) s.

(** [s.endsWith(searchString)] *)
Definition endsWith (s searchString : string) : bool :=
  (String.length searchString <=? String.length s)%nat &&
  String.eqb (substring s (String.length s - String.length searchString)
                          (String.length s))
             searchString.

(** [s.indexOf(searchString, position)] for a non-empty [searchString];
    [None] stands for the result [-1]. *)
Definition indexOf (s searchString : string) (position : nat) : option nat :=
  String.index position searchString s.

(** ** Data model *)

(** The entry kinds of mobiletto-common. *)
Inductive MType : Type := M_FILE | M_DIR | M_LINK | M_SPECIAL.

#[global] Instance MType_eq_dec : EqDecision MType.
Proof. solve_decision. Defined.

(** A [Buffer] is a sequence of bytes. *)
Definition Buffer : Type := list byte.

(** An element of the stored [bytes] array.  [write] spreads buffers into
    the array, which gives numbers; records of the legacy layout hold
    strings. *)
Inductive BytesElem : Type :=
| ENum (b : byte)
| EStr (s : string).

(** [IdbMetadata]: a stored record, or a directory entry made up by [_list]
    (which has a [type] and a [name] only). *)
Record IdbMetadata : Type := mkMeta {
  name : string;
  type : MType;
  bytes : option (list BytesElem);
  size : option nat;
  mtime : option Z
}.

(** [{ type: M_DIR, name }] *)
Definition mkDir (n : string) : IdbMetadata :=
  {| name := n; type := M_DIR; bytes := None; size := None; mtime := None |}.

Inductive Error : Type :=
| MobilettoError (message : string)
| MobilettoNotFoundError (path : string).

(** The fate of a promise. *)
Inductive Promise (A : Type) : Type :=
| Resolved (value : A)
| Rejected (reason : Error)
| Pending.
Arguments Resolved {A} value.
Arguments Rejected {A} reason.
Arguments Pending {A}.

(** The object store [ROOT_STORE]: out-of-line keys, one record per key. *)
Abbreviation Store := (gmap string IdbMetadata).

(** ** Array primitives *)

Section Arrays.
Context {A : Type}.

(** Insertion of [x] in front of the first element that does not have to
    precede it. *)
Fixpoint insertBy (compareFn : A → A → Z) (x : A) (l : list A) : list A :=
  match l with
  | [] => [x]
  | y :: l' =>
      if (compareFn x y <=? 0)%Z then x :: y :: l'
      else y :: insertBy compareFn x l'
  end.

(** [Array.prototype.sort(compareFn)]: a stable sort; elements that
    compare as equal keep their order. *)
Fixpoint sort (compareFn : A → A → Z) (l : list A) : list A :=
  match l with
  | [] => []
  | x :: l' => insertBy compareFn x (sort compareFn l')
  end.

(** [Array.prototype.findIndex(predicate)]; [None] stands for [-1]. *)
Fixpoint findIndex (predicate : A → bool) (l : list A) : option nat :=
  match l with
  | [] => None
  | x :: l' =>
      if predicate x then Some 0%nat
      else match findIndex predicate l' with
           | Some i => Some (S i)
           | None => None
           end
  end.

(** [Array.prototype.filter((value, index, self) => ...)], [index] being
    the position of [value] in the array and [self] the whole array. *)
Fixpoint filterFrom (predicate : A → nat → list A → bool)
         (self : list A) (index : nat) (l : list A) : list A :=
  match l with
  | [] => []
  | value :: l' =>
      if predicate value index self
      then value :: filterFrom predicate self (S index) l'
      else filterFrom predicate self (S index) l'
  end.

Definition filterIndexed (predicate : A → nat → list A → bool)
           (self : list A) : list A :=
  filterFrom predicate self 0 self.
End Arrays.

(** Key order of IndexedDB on strings: code unit by code unit. *)
Definition keyCompare (k1 k2 : string) : Z :=
  match String.compare k1 k2 with
  | Lt => (-1)%Z
  | Eq => 0%Z
  | Gt => 1%Z
  end.

(** [objectStore.getAll()]: every record, in ascending order of the keys. *)
Definition getAll (db : Store) : list IdbMetadata :=
  (sort (λ e1 e2, keyCompare e1.1 e2.1) (map_to_list db)).*2.

(** ** [_list] *)

(** The normalized prefix of the one-level listing. *)
Definition normMatch (pth : string) : string :=
  if String.eqb pth "" then ""
  else if endsWith pth "/" then pth else pth +:+ "/".

(** The callback given to [map].  Its second argument and second result are
    the variable [foundExact], which the callback assigns. *)
Definition mapEntry (pth : string) (recursive : bool) (o : IdbMetadata)
           (foundExact : option IdbMetadata)
  : option IdbMetadata * option IdbMetadata :=
  let prefixMatch := startsWith (name o) pth in
  if String.eqb (name o) pth then (Some o, Some o)
  else if prefixMatch then
    if recursive then (Some o, foundExact)
    else
      let normMatch := normMatch pth in
      if startsWith (name o) normMatch
         && (String.length normMatch <? String.length (name o))%nat
      then
        match indexOf (name o) "/" (String.length normMatch + 1) with
        | None => (Some o, foundExact)
        | Some nextSlash =>
            (Some (mkDir (substring (name o) 0 nextSlash)), foundExact)
        end
      else (None, foundExact)
  else (None, foundExact).

(** [array.map(mapEntry)], in array order. *)
Fixpoint mapEntries (pth : string) (recursive : bool) (l : list IdbMetadata)
         (foundExact : option IdbMetadata)
  : list (option IdbMetadata) * option IdbMetadata :=
  match l with
  | [] => ([], foundExact)
  | o :: l' =>
      let '(r, foundExact') := mapEntry pth recursive o foundExact in
      let '(rs, foundExact'') := mapEntries pth recursive l' foundExact' in
      (r :: rs, foundExact'')
  end.

(** [.filter((o) => o != null)] *)
Definition filterNonNull (l : list (option IdbMetadata)) : list IdbMetadata :=
  omap id l.

(** The de-duplicating filter: an entry stays when it is the first one of
    the array with its name. *)
Definition firstOfName (value : IdbMetadata) (index : nat)
           (self : list IdbMetadata) : bool :=
  match findIndex (λ t, String.eqb (name t) (name value)) self with
  | Some i => Nat.eqb index i
  | None => false
  end.

(** A visitor is a callback returning a promise; it may change a state of
    type [S] before its promise settles. *)
Definition Visitor (S : Type) : Type := IdbMetadata → S → Promise unit * S.

(** [for (const f of fs) await visitor(f)]: a rejected [await] throws and
    ends the loop, a promise that never settles suspends it for ever. *)
Fixpoint visitAll {S : Type} (visitor : Visitor S) (fs : list IdbMetadata)
         (σ : S) : Promise unit * S :=
  match fs with
  | [] => (Resolved (), σ)
  | f :: fs' =>
      match visitor f σ with
      | (Resolved _, σ') => visitAll visitor fs' σ'
      | (Rejected e, σ') => (Rejected e, σ')
      | (Pending, σ') => (Pending, σ')
      end
  end.

Section Listing.
(** [a.localeCompare(b)]: negative, zero or positive. *)
Variable localeCompare : string → string → Z.

(** The array [filtered] of [listRequest.onsuccess], with the final value
    of [foundExact]. *)
Definition filtered (result : list IdbMetadata) (pth : string)
           (recursive : bool)
  : list IdbMetadata * option IdbMetadata :=
  let sorted := sort (λ o1 o2, localeCompare (name o1) (name o2)) result in
  let '(mapped, foundExact) := mapEntries pth recursive sorted None in
  (filterIndexed firstOfName (filterNonNull mapped), foundExact).

(** [_list(pth, recursive, visitor)] on the database [db], the state seen
    by the visitor being [σ].  The handler [listRequest.onsuccess] is an
    async function: when an awaited visitor rejects, the handler throws
    before it reaches [resolve], and the promise of [_list] never
    settles. *)
Definition _list {S : Type} (db : Store) (pth : string) (recursive : bool)
           (visitor : option (Visitor S)) (σ : S)
  : Promise (list IdbMetadata) * S :=
  let '(filtered, foundExact) := filtered (getAll db) pth recursive in
  match foundExact, recursive with
  | Some foundExact, false =>
      match visitor with
      | Some visitor =>
          match visitor foundExact σ with
          | (Resolved _, σ') => (Resolved [foundExact], σ')
          | (_, σ') => (Pending, σ')
          end
      | None => (Resolved [foundExact], σ)
      end
  | _, _ =>
      match visitor with
      | Some visitor =>
          match visitAll visitor
                  (filter (λ o, type o = M_FILE) filtered) σ with
          | (Resolved _, σ') => (Resolved filtered, σ')
          | (_, σ') => (Pending, σ')
          end
      | None => (Resolved filtered, σ)
      end
  end.

(** [list(pth, optsOrRecursive, visitor)], the options already reduced to
    the flag [recursive]. *)
Definition list_ {S : Type} (db : Store) (pth : string) (recursive : bool)
           (visitor : option (Visitor S)) (σ : S)
  : Promise (list IdbMetadata) * S :=
  _list db pth recursive visitor σ.
End Listing.

(** ** [write] *)

(** A push-style source is described by the events it emits, a pull-style
    one by the values of its successive [next()] calls. *)
Inductive StreamEvent : Type :=
| Data (data : option Buffer)
| StreamError (e : Error)
| End.

(** [MobilettoWriteSource].  A yielded [None] is a falsy value (the
    [undefined] of a generator that is done, or [null]); a [Buffer] is
    truthy even when it is empty.  A generator that has run through its
    yields answers [undefined] to every further [next()].

    The listeners that [write] puts on a push-style source are never taken
    off.  Such a source is told by the [events] its listeners get before
    the code after [await streamHandler(readable)] runs (all its events
    when that code never runs), and by the events [late] they get from
    then on, until the put request succeeds. *)
Inductive MobilettoWriteSource : Type :=
| Readable (events late : list StreamEvent)
| Generator (yields : list (option Buffer)).

(** [bytes.push(...chunk)] *)
Definition push (bytes : list BytesElem) (chunk : Buffer) : list BytesElem :=
  bytes ++ (ENum <$> chunk).

(** [resolve2] and [reject2] settle the promise once; later calls change
    nothing. *)
Definition settleOnce {A : Type} (promise outcome : Promise A) : Promise A :=
  match promise with
  | Pending => outcome
  | _ => promise
  end.

(** The three listeners of [streamHandler] at work on a run of events:
    the promise of the handler and the array [bytes] afterwards.  The data
    listener pushes whether the promise is settled or not. *)
Fixpoint streamListeners (events : list StreamEvent) (bytes : list BytesElem)
         (promise : Promise nat) : Promise nat * list BytesElem :=
  match events with
  | [] => (promise, bytes)
  | Data (Some data) :: events' =>
      streamListeners events' (push bytes data) promise
  | Data None :: events' => streamListeners events' bytes promise
  | StreamError e :: events' =>
      streamListeners events' bytes (settleOnce promise (Rejected e))
  | End :: events' =>
      streamListeners events' bytes (settleOnce promise (Resolved 0%nat))
  end.

(** [streamHandler(readable)]: the promise of the handler and the array
    [bytes] at the time the code that awaits it goes on. *)
Definition streamHandler (events : list StreamEvent) (bytes : list BytesElem)
  : Promise nat * list BytesElem :=
  streamListeners events bytes Pending.

(** [generator.next().value] and the generator afterwards. *)
Definition next (generator : list (option Buffer))
  : option Buffer * list (option Buffer) :=
  match generator with
  | [] => (None, [])
  | value :: generator' => (value, generator')
  end.

(** What is left to do for the loop of [write]. *)
Definition pullMeasure (chunk : option Buffer)
           (generator : list (option Buffer)) (nullCount : nat) : nat :=
  (match chunk with Some _ => 1 | None => 0 end) + length generator
  + (5 - nullCount).

(** [while (chunk || nullCount < 5) { ... }]: the state of the loop is the
    current [chunk], the generator, [nullCount] and [bytes]; its value is
    [bytes] on exit. *)
Equations? pullLoop (chunk : option Buffer) (generator : list (option Buffer))
          (nullCount : nat) (bytes : list BytesElem) : list BytesElem
  by wf (pullMeasure chunk generator nullCount) lt :=
pullLoop (Some chunk) generator nullCount bytes :=
  pullLoop (next generator).1 (next generator).2 nullCount (push bytes chunk);
pullLoop None generator nullCount bytes with decide (nullCount < 5) := {
  | left _ =>
      pullLoop (next generator).1 (next generator).2 (S nullCount) bytes
  | right _ => bytes }.
Proof.
  all: unfold pullMeasure; destruct generator as [|[c|] g]; simpl; lia.
Qed.

(** [write(path, generatorOrReadableStream)] at time [now] on the database
    [db]: the promise of [write] and the database afterwards.  The executor
    of the promise is an async function, so an error thrown inside it (the
    rejected [await streamHandler]) settles nothing.  The record is made,
    and copied by [put], when the code after the [await] runs; the promise
    is resolved when the request succeeds, with the length that the array
    [bytes] has by then. *)
Definition write (now : Z) (db : Store) (path : string)
           (generatorOrReadableStream : MobilettoWriteSource)
  : Promise nat * Store :=
  let collected :=
    match generatorOrReadableStream with
    | Readable readable late =>
        match streamHandler readable [] with
        | (Resolved _, bytes) =>
            Some (bytes, (streamListeners late bytes (Resolved 0%nat)).2)
        | _ => None
        end
    | Generator generator =>
        let bytes := pullLoop (next generator).1 (next generator).2 0 [] in
        Some (bytes, bytes)
    end in
  match collected with
  | None => (Pending, db)
  | Some (bytes, bytesOnSuccess) =>
      let writeObject :=
        {| name := path; type := M_FILE; bytes := Some bytes;
           size := Some (length bytes); mtime := Some now |} in
      (Resolved (length bytesOnSuccess), <[path := writeObject]> db)
  end.

(** ** [read] *)

(** What [read] calls back. *)
Inductive ReadCall : Type :=
| Callback (chunk : Buffer)
| EndCallback.

(** [String(e)] for an element of the [bytes] array. *)
Definition elemToString (e : BytesElem) : string :=
  match e with
  | ENum b => NilZero.string_of_uint (N.to_uint (Byte.to_N b))
  | EStr s => s
  end.

(** [bytes.join("")] *)
Definition join (bytes : list BytesElem) : string :=
  foldr (λ e s, elemToString e +:+ s) "" bytes.

Section Reading.
(** [Buffer.from(string)]: the UTF-8 encoding of the string. *)
Variable utf8Encode : string → Buffer.
(** The byte that [Buffer.from(array)] makes of a string element. *)
Variable stringToUint8 : string → byte.

(** [Buffer.from(array)] *)
Definition bufferFromArray (bytes : list BytesElem) : Buffer :=
  (λ e, match e with ENum b => b | EStr s => stringToUint8 s end) <$> bytes.

(** [readRequest.onsuccess]: the calls made, with the values of
    [bytesRead] and [notFound] afterwards. *)
Definition readRequest_onsuccess (result : option IdbMetadata)
           (path : string) (endCallback : bool)
  : list ReadCall * nat * option Error :=
  match result with
  | None => ([], 0%nat, Some (MobilettoNotFoundError path))
  | Some result =>
      match bytes result with
      | Some ((e :: _) as stored) =>
          let bytes :=
            match e with
            | EStr _ => utf8Encode (join stored)
            | ENum _ => bufferFromArray stored
            end in
          (Callback bytes :: (if endCallback then [EndCallback] else []),
           length bytes, None)
      | _ => ([], 0%nat, None)
      end
  end.

(** [readTx.oncomplete] *)
Definition readTx_oncomplete (bytesRead : nat) (notFound : option Error)
  : Promise nat :=
  if (0 <? bytesRead)%nat then Resolved bytesRead
  else match notFound with
       | Some notFound => Rejected notFound
       | None => Pending
       end.

(** [read(path, callback, endCallback)]: the calls made to the callbacks,
    in order, and the promise of [read]; [endCallback] tells whether an
    end callback was given. *)
Definition read (db : Store) (path : string) (endCallback : bool)
  : list ReadCall * Promise nat :=
  let '(calls, bytesRead, notFound) :=
    readRequest_onsuccess (db !! path) path endCallback in
  (calls, readTx_oncomplete bytesRead notFound).
End Reading.

(** ** [remove] *)

(** What the visitor of [remove] works on: the database and the two arrays
    of [remove]. *)
Record RemoveState : Type := mkRemoveState {
  rs_db : Store;
  deleteErrors : list Error;
  deletedFiles : list string
}.

(** [deleteVisitor(file)].  For an entry that is not a file the promise is
    settled at once and the function goes on: the delete transaction still
    runs, but what its handlers push comes after [remove] has looked at the
    arrays, and their [resolve] and [reject] find the promise settled. *)
Definition deleteVisitor (quiet : bool) : Visitor RemoveState :=
  λ file σ,
    let path := name file in
    if decide (type file = M_FILE) then
      match rs_db σ !! path with
      | None =>
          let deleteResult := MobilettoNotFoundError path in
          if quiet then (Resolved (), σ)
          else (Rejected deleteResult,
                mkRemoveState (rs_db σ) (deleteErrors σ ++ [deleteResult])
                              (deletedFiles σ))
      | Some _ =>
          (Resolved (),
           mkRemoveState (delete path (rs_db σ)) (deleteErrors σ)
                         (deletedFiles σ ++ [path]))
      end
    else
      let err := MobilettoError ("remove(" +:+ path +:+ "): not a file") in
      if quiet
      then (Resolved (),
            mkRemoveState (delete path (rs_db σ)) (deleteErrors σ)
                          (deletedFiles σ))
      else (Rejected err,
            mkRemoveState (delete path (rs_db σ)) (deleteErrors σ ++ [err])
                          (deletedFiles σ)).

(** The value of [remove]: [string | string[]]. *)
Inductive RemoveResult : Type :=
| OnePath (path : string)
| Paths (paths : list string).

Section Removing.
Variable localeCompare : string → string → Z.

(** [remove(path, optsOrRecursive, quiet)], the options already reduced to
    the flag [recursive]: the promise of [remove] and the database
    afterwards. *)
Definition remove (db : Store) (path : string) (recursive quiet : bool)
  : Promise RemoveResult * Store :=
  match _list localeCompare db path recursive
              (Some (deleteVisitor quiet)) (mkRemoveState db [] []) with
  | (Resolved toDelete, σ) =>
      if (length toDelete =? 0)%nat then
        if quiet then (Resolved (Paths []), rs_db σ)
        else (Rejected (MobilettoNotFoundError path), rs_db σ)
      else
        match deleteErrors σ with
        | [] =>
            (Resolved (match deletedFiles σ with
                       | [] => Paths []
                       | [file] => OnePath file
                       | files => Paths files
                       end), rs_db σ)
        | err :: _ => (Rejected err, rs_db σ)
        end
  | (_, σ) => (Pending, rs_db σ)
  end.
End Removing.

(** ** Vocabulary of the statements *)

(** The order in which a comparator puts two elements. *)
Definition precedes {A : Type} (compareFn : A → A → Z) : relation A :=
  λ x y, (compareFn x y <= 0)%Z.

(** What [sort] asks of its comparator to give a definite order. *)
Definition consistentComparator {A : Type} (compareFn : A → A → Z) : Prop :=
  (∀ x y, (0 < compareFn x y)%Z → (compareFn y x <= 0)%Z) ∧
  (∀ x y z, (compareFn x y <= 0)%Z → (compareFn y z <= 0)%Z →
            (compareFn x z <= 0)%Z).

(** The databases this client builds: [write] is the only operation that
    puts a record, it puts it under its own name and with the type
    [M_FILE]. *)
Definition store_ok (db : Store) : Prop :=
  ∀ key o, db !! key = Some o → name o = key ∧ type o = M_FILE.

(** What the callback of [map] returns for [o]. *)
Definition entryOf (pth : string) (recursive : bool) (o : IdbMetadata)
  : option IdbMetadata :=
  (mapEntry pth recursive o None).1.

(** The entries of [l] whose name is neither in [seen] nor carried by an
    earlier entry of [l]. *)
Fixpoint firstOccurrences (seen : list string) (l : list IdbMetadata)
  : list IdbMetadata :=
  match l with
  | [] => []
  | x :: l' =>
      if decide (name x ∈ seen) then firstOccurrences seen l'
      else x :: firstOccurrences (name x :: seen) l'
  end.

(** The array [_list] resolves with when it resolves. *)
Definition listing (localeCompare : string → string → Z) (db : Store)
           (pth : string) (recursive : bool) : list IdbMetadata :=
  let '(filtered, foundExact) :=
    filtered localeCompare (getAll db) pth recursive in
  match foundExact, recursive with
  | Some foundExact, false => [foundExact]
  | _, _ => filtered
  end.

(** The comparator of [_list] on records. *)
Definition byName (localeCompare : string → string → Z)
  : IdbMetadata → IdbMetadata → Z :=
  λ o1 o2, localeCompare (name o1) (name o2).

(** A visitor that only notes down what it is called with. *)
Definition recordCalls : Visitor (list IdbMetadata) :=
  λ f calls, (Resolved (), calls ++ [f]).

(** The number of falsy values among the yields of a generator, and the
    bytes of its chunks, in order. *)
Definition countNull (yields : list (option Buffer)) : nat :=
  length (filter (λ y, y = None) yields).

Definition chunkBytes (yields : list (option Buffer)) : list BytesElem :=
  ENum <$> concat (omap id yields).

(** The bytes the loop of [write] adds to [bytes], told from the values the
    generator yields from the current chunk on: the chunks are appended
    until a falsy value comes when [nullCount] has reached 5. *)
Fixpoint collected (yields : list (option Buffer)) (nullCount : nat)
  : list BytesElem :=
  match yields with
  | [] => []
  | Some chunk :: yields' => (ENum <$> chunk) ++ collected yields' nullCount
  | None :: yields' =>
      if decide (nullCount < 5) then collected yields' (S nullCount) else []
  end.

(** The outcome of a [write] that stores [bytes] under [path]. *)
Definition stored (now : Z) (db : Store) (path : string)
           (bytes : list BytesElem) : Promise nat * Store :=
  (Resolved (length bytes),
   <[path := {| name := path; type := M_FILE; bytes := Some bytes;
                size := Some (length bytes); mtime := Some now |}]> db).

(** A generator whose chunks come one falsy value apart. *)
Definition sparseYields : list (option Buffer) :=
  [None; Some [x01]; None; Some [x02]; None; Some [x03];
   None; Some [x04]; None; Some [x05]; None; Some [x06]]%byte.

(** The length of the longest run of falsy values among the yields, [run]
    being the length of the run that is going on. *)
Fixpoint longestNullRunFrom (yields : list (option Buffer)) (run : nat) : nat :=
  match yields with
  | [] => run
  | None :: yields' => longestNullRunFrom yields' (S run)
  | Some _ :: yields' => Nat.max run (longestNullRunFrom yields' 0)
  end.

Definition longestNullRun (yields : list (option Buffer)) : nat :=
  longestNullRunFrom yields 0.

(** The data of a run of events of a push-style source, falsy ones
    included, in the order of their arrival. *)
Fixpoint eventData (events : list StreamEvent) : list (option Buffer) :=
  match events with
  | [] => []
  | Data data :: events' => data :: eventData events'
  | _ :: events' => eventData events'
  end.

(** The bytes that come into the array [bytes] after the record was made:
    none for a pull-style source. *)
Definition lateData (source : MobilettoWriteSource) : list BytesElem :=
  match source with
  | Readable _ late => chunkBytes (eventData late)
  | Generator _ => []
  end.

(** A record as [write] makes it, for examples. *)
Definition fileOf (path : string) (content : Buffer) : IdbMetadata :=
  {| name := path; type := M_FILE; bytes := Some (ENum <$> content);
     size := Some (length content); mtime := Some 0%Z |}.

(** The database that holds an empty file under each of the paths. *)
Definition storeOf (paths : list string) : Store :=
  list_to_map ((λ path, (path, fileOf path [])) <$> paths).

(** ** [metadata] *)

(** [metadata(path)]: the record stored under [path] without its [bytes].
    The record comes out of the object store as a copy, so that deleting
    the field leaves the database as it is. *)
Definition metadata (db : Store) (path : string) : Promise IdbMetadata :=
  match db !! path with
  | None => Rejected (MobilettoNotFoundError path)
  | Some data =>
      Resolved {| name := name data; type := type data; bytes := None;
                  size := size data; mtime := mtime data |}
  end.

(** ** The database handle *)

(** What a promise of the constructor is rejected with: a plain string or
    an error object. *)
Inductive Reason : Type :=
| ReasonText (text : string)
| ReasonError (e : Error).

(** The fate of a promise that may be rejected with any [Reason]. *)
Inductive Settlement (A : Type) : Type :=
| Fulfilled (value : A)
| Failed (reason : Reason)
| Unsettled.
Arguments Fulfilled {A} value.
Arguments Failed {A} reason.
Arguments Unsettled {A}.

(** [resolve] and [reject] settle a promise once; later calls change
    nothing. *)
Definition settle {A : Type} (promise outcome : Settlement A) : Settlement A :=
  match promise with
  | Unsettled => outcome
  | _ => promise
  end.

Definition IDB_SCHEMA_VERSION : nat := 1.

Section Handle.
(** The type of the connections ([IDBDatabase]). *)
Variable IDBDatabase : Type.

(** The events of the open request that the constructor listens to;
    [OnDatabaseError] is an error event on the connection itself.  The
    [result] of [OnUpgradeNeeded] is [event.target.result]. *)
Inductive OpenEvent : Type :=
| OnError
| OnUpgradeNeeded (result : option IDBDatabase)
| OnDatabaseError
| OnSuccess.

(** An [IDBFactory], told by the events its open request fires for a name
    and a version. *)
Definition IDBFactory : Type := string → nat → list OpenEvent.

(** The variables of the executor of [dbPromise]: the local [db] (the
    connection whose [onerror] has been set), whether the object store was
    created, and the promise. *)
Record OpenState : Type := mkOpenState {
  os_db : option IDBDatabase;
  os_rootStore : bool;
  os_promise : Settlement IDBDatabase
}.

(** The handlers [onerror], [onupgradeneeded], [db.onerror] and
    [onsuccess]. *)
Definition openHandler (st : OpenState) (event : OpenEvent) : OpenState :=
  match event with
  | OnError =>
      mkOpenState (os_db st) (os_rootStore st)
        (settle (os_promise st) (Failed (ReasonText "indexedDB.open failed")))
  | OnUpgradeNeeded None =>
      mkOpenState (os_db st) (os_rootStore st)
        (settle (os_promise st)
           (Failed (ReasonError (MobilettoError
              "indexedDB.upgradeneeded: event.target.result was not found"))))
  | OnUpgradeNeeded (Some result) =>
      mkOpenState (Some result) true (os_promise st)
  | OnDatabaseError =>
      match os_db st with
      | Some _ =>
          mkOpenState (os_db st) (os_rootStore st)
            (settle (os_promise st)
               (Failed (ReasonError (MobilettoError
                  "indexedDB.open failed (upgradeneeded)"))))
      | None => st
      end
  | OnSuccess =>
      let resolved :=
        match os_db st with
        | Some db => settle (os_promise st) (Fulfilled db)
        | None => os_promise st
        end in
      mkOpenState (os_db st) (os_rootStore st)
        (settle resolved
           (Failed (ReasonText "indexedDB.open failed: db was not initialized")))
  end.

(** The run of the handlers over the events of an open request. *)
Definition openRequest (events : list OpenEvent) : OpenState :=
  foldl openHandler (mkOpenState None false Unsettled) events.

(** The fields of a [StorageClient]. *)
Record StorageClient : Type := mkStorageClient {
  indexedDB : IDBFactory;
  dbPromise : Settlement IDBDatabase;
  db : option IDBDatabase;
  rootStore : bool
}.

(** The options of the constructor, the field [indexedDB] of which may be
    missing. *)
Record Options : Type := mkOptions {
  opts_indexedDB : option IDBFactory
}.

(** [new StorageClient(dbName, opts)]: an error thrown, or the client.  The
    field [db] is [null] and stays so: no handler assigns it. *)
Definition newStorageClient (dbName : string) (opts : option Options)
  : Error + StorageClient :=
  if String.eqb dbName "" then
    inl (MobilettoError "indexeddb.StorageClient: key (dbName) is required")
  else
    match opts with
    | Some {| opts_indexedDB := Some factory |} =>
        let st := openRequest (factory dbName IDB_SCHEMA_VERSION) in
        inr (mkStorageClient factory (os_promise st) None (os_rootStore st))
    | _ =>
        inl (MobilettoError "indexeddb.StorageClient: opts.indexedDB is required")
    end.

(** [storageClient(key, secret, opts)] *)
Definition storageClient (key : string) (secret : option string)
           (opts : option Options) : Error + StorageClient :=
  if String.eqb key "" then
    inl (MobilettoError "indexeddb.storageClient: key is required")
  else
    match opts with
    | Some {| opts_indexedDB := Some _ |} => newStorageClient key opts
    | _ =>
        inl (MobilettoError "indexeddb.storageClient: opts.indexedDB is required")
    end.

(** [mdb()]: the connection every operation starts with.  An awaited
    promise that was rejected throws its reason. *)
Definition mdb (client : StorageClient) : Settlement IDBDatabase :=
  match db client with
  | Some db => Fulfilled db
  | None =>
      match dbPromise client with
      | Fulfilled db => Fulfilled db
      | Failed reason => Failed reason
      | Unsettled => Unsettled
      end
  end.
End Handle.

Arguments OnError {IDBDatabase}.
Arguments OnUpgradeNeeded {IDBDatabase} result.
Arguments OnDatabaseError {IDBDatabase}.
Arguments OnSuccess {IDBDatabase}.
Arguments mkOptions {IDBDatabase} opts_indexedDB.
Arguments openHandler {IDBDatabase} st event.
Arguments openRequest {IDBDatabase} events.
Arguments os_db {IDBDatabase} o.
Arguments os_rootStore {IDBDatabase} o.
Arguments os_promise {IDBDatabase} o.
Arguments indexedDB {IDBDatabase} s.
Arguments dbPromise {IDBDatabase} s.
Arguments db {IDBDatabase} s.
Arguments rootStore {IDBDatabase} s.
Arguments newStorageClient {IDBDatabase} dbName opts.
Arguments storageClient {IDBDatabase} key secret opts.
Arguments mdb {IDBDatabase} client.

(** ** Histories *)

(** The operations that change the database. *)
Inductive Operation : Type :=
| DoWrite (now : Z) (path : string) (source : MobilettoWriteSource)
| DoRemove (path : string) (recursive quiet : bool).

(** The database after an operation. *)
Definition perform (localeCompare : string → string → Z) (db : Store)
           (op : Operation) : Store :=
  match op with
  | DoWrite now path source => (write now db path source).2
  | DoRemove path recursive quiet =>
      (remove localeCompare db path recursive quiet).2
  end.

(** The database after a sequence of operations on a new database. *)
Definition history (localeCompare : string → string → Z)
           (ops : list Operation) : Store :=
  foldl (perform localeCompare) ∅ ops.

(** The record [write] stores. *)
Definition writtenRecord (now : Z) (path : string) (bytes : list BytesElem)
  : IdbMetadata :=
  {| name := path; type := M_FILE; bytes := Some bytes;
     size := Some (length bytes); mtime := Some now |}.

(** What [remove] resolves with for the paths it has deleted. *)
Definition removeValue (paths : list string) : RemoveResult :=
  match paths with
  | [file] => OnePath file
  | _ => Paths paths
  end.

(** The entries [_list] calls its visitor on, in order, as long as no call
    fails. *)
Definition visitedEntries (localeCompare : string → string → Z) (db : Store)
           (pth : string) (recursive : bool) : list IdbMetadata :=
  let '(filtered, foundExact) :=
    filtered localeCompare (getAll db) pth recursive in
  match foundExact, recursive with
  | Some foundExact, false => [foundExact]
  | _, _ => filter (λ o, type o = M_FILE) filtered
  end.

(** * Properties *)

(** ** Strings *)

Lemma string_app_cons (c : ascii) (s t : string) :
  String c s +:+ t = String c (s +:+ t).
Proof. reflexivity. Qed.

Lemma string_app_nil_l (t : string) : "" +:+ t = t.
Proof. reflexivity. Qed.

Lemma string_app_assoc (s t u : string) : (s +:+ t) +:+ u = s +:+ t +:+ u.
Proof.
  induction s as [|c s IH]; [done |].
  by rewrite !string_app_cons, IH.
Qed.

Lemma string_app_nil_r (s : string) : s +:+ "" = s.
Proof.
  induction s as [|c s IH]; [done |]. by rewrite string_app_cons, IH.
Qed.

Lemma string_length_app (s t : string) :
  String.length (s +:+ t) = String.length s + String.length t.
Proof.
  induction s as [|c s IH]; [done |].
  rewrite string_app_cons. simpl. by rewrite IH.
Qed.

Lemma prefix_app (p t : string) : String.prefix p (p +:+ t) = true.
Proof.
  induction p as [|c p IH]; [by destruct t |].
  rewrite string_app_cons. simpl.
  destruct (ascii_dec c c); [done | congruence].
Qed.

Lemma prefix_inv (p s : string) :
  String.prefix p s = true → ∃ t, s = p +:+ t.
Proof.
  revert s. induction p as [|c p IH]; intros s H.
  - by exists s.
  - destruct s as [|d s]; simpl in H; [done |].
    destruct (ascii_dec c d) as [->|]; [| done].
    destruct (IH _ H) as [t ->]. by exists t.
Qed.

Lemma startsWith_iff (s p : string) :
  startsWith s p = true ↔ ∃ t, s = p +:+ t.
Proof.
  split; [apply prefix_inv | intros [t ->]; apply prefix_app].
Qed.

Lemma startsWith_length (s p : string) :
  startsWith s p = true → String.length p ≤ String.length s.
Proof.
  intros [t ->]%startsWith_iff. rewrite string_length_app. lia.
Qed.

Lemma startsWith_trans (s p q : string) :
  startsWith s p = true → startsWith p q = true → startsWith s q = true.
Proof.
  intros [t ->]%startsWith_iff [u ->]%startsWith_iff.
  apply startsWith_iff. exists (u +:+ t).
  by rewrite string_app_assoc.
Qed.

Lemma startsWith_normMatch (pth : string) :
  startsWith (normMatch pth) pth = true.
Proof.
  unfold normMatch. destruct (String.eqb_spec pth "") as [->|]; [done |].
  destruct (endsWith pth "/"); apply startsWith_iff.
  - exists "". by rewrite string_app_nil_r.
  - by exists "/".
Qed.

Lemma length_normMatch (pth : string) :
  String.length pth ≤ String.length (normMatch pth).
Proof. apply startsWith_length, startsWith_normMatch. Qed.

(** A non-empty path that does not end with the separator is normalized by
    appending one. *)
Lemma normMatch_append (pth : string) :
  pth ≠ "" → endsWith pth "/" = false → normMatch pth = pth +:+ "/".
Proof.
  intros Hne Hend. unfold normMatch. rewrite Hend.
  by destruct (String.eqb_spec pth "").
Qed.

Lemma string_substring_0_length (k : nat) (s : string) :
  k ≤ String.length s → String.length (String.substring 0 k s) = k.
Proof.
  revert s. induction k as [|k IH]; intros [|c s] H; simpl in *;
    try lia; try done.
  rewrite IH; lia.
Qed.

(** What a successful search for the one-character string [sep] says: the
    index lies at or after the start position, it holds [sep], and the text
    before it is the prefix of that length. *)
Lemma index_char_Some (sep : ascii) (s : string) (n k : nat) :
  String.index n (String sep "") s = Some k →
  n ≤ k ∧ k < String.length s ∧
  ∃ rest, s = String.substring 0 k s +:+ String sep rest.
Proof.
  revert n k. induction s as [|c s IH]; intros n k H.
  - destruct n; simpl in H; done.
  - destruct n as [|n].
    + cbn [String.index] in H.
      destruct (String.prefix (String sep "") (String c s)) eqn:Hp.
      * injection H as <-. simpl in Hp.
        destruct (ascii_dec sep c) as [->|]; [| done].
        split; [lia |]. split; [simpl; lia |]. by exists s.
      * destruct (String.index 0 (String sep "") s) as [m|] eqn:Hm; [| done].
        injection H as <-.
        destruct (IH _ _ Hm) as (_ & Hlt & rest & Hrest).
        split; [lia |]. split; [simpl; lia |].
        exists rest. simpl. rewrite string_app_cons. by rewrite <- Hrest.
    + cbn [String.index] in H.
      destruct (String.index n (String sep "") s) as [m|] eqn:Hm; [| done].
      injection H as <-.
      destruct (IH _ _ Hm) as (Hle & Hlt & rest & Hrest).
      split; [lia |]. split; [simpl; lia |].
      exists rest. simpl. rewrite string_app_cons. by rewrite <- Hrest.
Qed.

Lemma substring_0 (s : string) (k : nat) :
  substring s 0 k = String.substring 0 k s.
Proof. unfold substring. by rewrite Nat.min_0_l, Nat.max_0_l, Nat.sub_0_r. Qed.

Lemma indexOf_slash_Some (s : string) (n k : nat) :
  indexOf s "/" n = Some k →
  n ≤ k ∧ k < String.length s ∧ String.length (substring s 0 k) = k ∧
  ∃ rest, s = substring s 0 k +:+ "/" +:+ rest.
Proof.
  intros (Hle & Hlt & rest & Hrest)%index_char_Some.
  rewrite substring_0. repeat split; [done | done | |].
  - apply string_substring_0_length. lia.
  - by exists rest.
Qed.

(** ** Arrays *)

Section ArrayFacts.
Context {A : Type}.
Implicit Types (l : list A) (compareFn : A → A → Z).

Lemma insertBy_Permutation compareFn x l : insertBy compareFn x l ≡ₚ x :: l.
Proof.
  induction l as [|y l IH]; simpl; [done |].
  destruct (compareFn x y <=? 0)%Z; [done |].
  by rewrite IH, Permutation_swap.
Qed.

Lemma sort_Permutation compareFn l : sort compareFn l ≡ₚ l.
Proof.
  induction l as [|x l IH]; simpl; [done |].
  by rewrite insertBy_Permutation, IH.
Qed.

Lemma elem_of_sort compareFn l x : x ∈ sort compareFn l ↔ x ∈ l.
Proof. by rewrite sort_Permutation. Qed.

Section Consistent.
Variable compareFn : A → A → Z.
Hypothesis compare_asym : ∀ x y, (0 < compareFn x y)%Z → (compareFn y x <= 0)%Z.
Hypothesis compare_trans :
  ∀ x y z, (compareFn x y <= 0)%Z → (compareFn y z <= 0)%Z →
           (compareFn x z <= 0)%Z.

Lemma insertBy_StronglySorted x l :
  StronglySorted (precedes compareFn) l →
  StronglySorted (precedes compareFn) (insertBy compareFn x l).
Proof.
  induction 1 as [|y l Hl IH Hy]; simpl.
  - repeat constructor.
  - destruct (Z.leb_spec (compareFn x y) 0) as [Hxy|Hxy].
    + constructor; [by constructor |].
      constructor; [done |].
      eapply Forall_impl; [exact Hy |].
      intros z Hz. by eapply compare_trans.
    + constructor; [done |].
      rewrite insertBy_Permutation. constructor; [| done].
      by apply compare_asym.
Qed.

Lemma sort_StronglySorted l :
  StronglySorted (precedes compareFn) (sort compareFn l).
Proof.
  induction l as [|x l IH]; simpl; [constructor |].
  by apply insertBy_StronglySorted.
Qed.
End Consistent.

(** [findIndex] answers the position of the first element that satisfies
    the predicate. *)
Lemma findIndex_app_first (predicate : A → bool) pre x l :
  Forall (λ y, predicate y = false) pre → predicate x = true →
  findIndex predicate (pre ++ x :: l) = Some (length pre).
Proof.
  induction 1 as [|y pre Hy _ IH]; intros Hx; simpl.
  - by rewrite Hx.
  - by rewrite Hy, IH.
Qed.

Lemma findIndex_app_lt (predicate : A → bool) pre l :
  Exists (λ y, predicate y = true) pre →
  ∃ i, findIndex predicate (pre ++ l) = Some i ∧ i < length pre.
Proof.
  induction 1 as [y pre Hy|y pre _ IH]; simpl.
  - rewrite Hy. exists 0. split; [done | lia].
  - destruct (predicate y); [exists 0; split; [done | lia] |].
    destruct IH as (i & -> & Hi). exists (S i). split; [done | lia].
Qed.
End ArrayFacts.

(** ** De-duplication by name *)

Lemma firstOccurrences_ext (seen seen' : list string) (l : list IdbMetadata) :
  (∀ n, n ∈ seen ↔ n ∈ seen') →
  firstOccurrences seen l = firstOccurrences seen' l.
Proof.
  revert seen seen'. induction l as [|x l IH]; intros seen seen' H; [done |].
  simpl. destruct (decide (name x ∈ seen)) as [Hin|Hnin];
    destruct (decide (name x ∈ seen')) as [Hin'|Hnin']; try (by apply IH).
  - by apply H in Hin.
  - by apply H in Hin'.
  - f_equal. apply IH. intros n. rewrite !elem_of_cons. by rewrite H.
Qed.

Lemma filterFrom_firstOfName (pre l : list IdbMetadata) :
  filterFrom firstOfName (pre ++ l) (length pre) l
  = firstOccurrences (name <$> pre) l.
Proof.
  revert pre. induction l as [|x l IH]; intros pre; [done |].
  assert (Hnext : filterFrom firstOfName (pre ++ x :: l) (S (length pre)) l
                  = firstOccurrences (name <$> (pre ++ [x])) l).
  { specialize (IH (pre ++ [x])).
    rewrite <- app_assoc, length_app in IH. simpl in IH.
    by rewrite Nat.add_1_r in IH. }
  cbn [filterFrom firstOccurrences]. unfold firstOfName at 1.
  destruct (decide (name x ∈ name <$> pre)) as [Hin|Hnin].
  - destruct (findIndex_app_lt (λ t, String.eqb (name t) (name x)) pre (x :: l))
      as (i & -> & Hi).
    { apply Exists_exists. apply list_elem_of_fmap in Hin as (y & Hy & Hin).
      exists y. split; [done |]. by rewrite Hy, String.eqb_refl. }
    destruct (Nat.eqb_spec (length pre) i); [lia |].
    rewrite Hnext. apply firstOccurrences_ext. intros nm.
    rewrite fmap_app, elem_of_app. simpl. rewrite list_elem_of_singleton.
    intuition congruence.
  - rewrite findIndex_app_first.
    + rewrite Nat.eqb_refl, Hnext. f_equal.
      apply firstOccurrences_ext. intros nm.
      rewrite fmap_app, elem_of_app, elem_of_cons. simpl.
      rewrite list_elem_of_singleton. tauto.
    + apply Forall_forall. intros y Hy.
      destruct (String.eqb_spec (name y) (name x)) as [Heq|]; [| done].
      exfalso. apply Hnin. rewrite <- Heq. by apply list_elem_of_fmap_2.
    + apply String.eqb_refl.
Qed.

(** The de-duplicating filter of [_list] keeps the first entry of every
    name. *)
Lemma filterIndexed_firstOfName (l : list IdbMetadata) :
  filterIndexed firstOfName l = firstOccurrences [] l.
Proof. exact (filterFrom_firstOfName [] l). Qed.

Lemma firstOccurrences_elem_of seen l x :
  x ∈ firstOccurrences seen l → x ∈ l ∧ name x ∉ seen.
Proof.
  revert seen. induction l as [|y l IH]; intros seen; simpl.
  - by intros ?%elem_of_nil.
  - destruct (decide (name y ∈ seen)) as [Hin|Hnin].
    + intros [? ?]%IH. split; [by right | done].
    + intros [->|[? Hx]%IH]%elem_of_cons.
      * split; [by left | done].
      * split; [by right |]. intros ?. apply Hx. by right.
Qed.

Lemma firstOccurrences_NoDup seen l : NoDup (name <$> firstOccurrences seen l).
Proof.
  revert seen. induction l as [|y l IH]; intros seen; simpl.
  - constructor.
  - destruct (decide (name y ∈ seen)); [apply IH |].
    rewrite fmap_cons. constructor; [| apply IH].
    intros (z & Hz & [_ Hn]%firstOccurrences_elem_of)%list_elem_of_fmap.
    apply Hn. rewrite Hz. by left.
Qed.

(** Every name of the array survives, carried by its first entry. *)
Lemma firstOccurrences_covers seen l x :
  x ∈ l → name x ∉ seen →
  ∃ y, y ∈ firstOccurrences seen l ∧ name y = name x.
Proof.
  revert seen. induction l as [|z l IH]; intros seen Hx Hseen.
  - by apply elem_of_nil in Hx.
  - simpl. destruct (decide (name z ∈ seen)) as [Hin|Hnin].
    + apply elem_of_cons in Hx as [->|Hx]; [done |]. by apply IH.
    + destruct (decide (name z = name x)) as [Heq|Hne].
      * exists z. split; [by left | done].
      * apply elem_of_cons in Hx as [->|Hx]; [done |].
        destruct (IH (name z :: seen) Hx) as (y & Hy & Hyx).
        { rewrite elem_of_cons. intuition congruence. }
        exists y. split; [by right | done].
Qed.

(** The entry that survives for a name is the first of the array with that
    name. *)
Lemma firstOccurrences_first seen pre x l :
  name x ∉ seen → Forall (λ y, name y ≠ name x) pre →
  x ∈ firstOccurrences seen (pre ++ x :: l).
Proof.
  revert seen. induction pre as [|z pre IH]; intros seen Hseen Hpre; simpl.
  - destruct (decide (name x ∈ seen)); [done | by left].
  - apply Forall_cons in Hpre as [Hz Hpre].
    destruct (decide (name z ∈ seen)); [by apply IH |].
    right. apply IH; [| done]. rewrite elem_of_cons. intuition congruence.
Qed.

Lemma firstOccurrences_id seen l :
  NoDup (name <$> l) → Forall (λ x, name x ∉ seen) l →
  firstOccurrences seen l = l.
Proof.
  revert seen. induction l as [|y l IH]; intros seen Hnd Hseen; [done |].
  rewrite fmap_cons in Hnd. apply NoDup_cons in Hnd as [Hy Hnd].
  apply Forall_cons in Hseen as [Hys Hseen]. simpl.
  destruct (decide (name y ∈ seen)); [done |]. f_equal.
  apply IH; [done |]. apply Forall_forall. intros x Hx.
  rewrite elem_of_cons. intros [Heq|Hin].
  - apply Hy. rewrite <- Heq. by apply list_elem_of_fmap_2.
  - by eapply Forall_forall in Hseen.
Qed.

(** ** The object store *)

Lemma getAll_Permutation (db : Store) : getAll db ≡ₚ (map_to_list db).*2.
Proof. unfold getAll. by rewrite sort_Permutation. Qed.

Lemma elem_of_getAll (db : Store) (o : IdbMetadata) :
  o ∈ getAll db ↔ ∃ key, db !! key = Some o.
Proof.
  rewrite getAll_Permutation, list_elem_of_fmap. split.
  - intros ([key o'] & -> & Hin). exists key. by apply elem_of_map_to_list.
  - intros [key Hkey]. exists (key, o). split; [done |].
    by apply elem_of_map_to_list.
Qed.

Lemma store_ok_lookup (db : Store) (o : IdbMetadata) :
  store_ok db → o ∈ getAll db → db !! name o = Some o ∧ type o = M_FILE.
Proof.
  intros Hok [key Hkey]%elem_of_getAll.
  destruct (Hok _ _ Hkey) as [<- ?]. done.
Qed.

Lemma getAll_names (db : Store) :
  store_ok db → name <$> getAll db ≡ₚ (map_to_list db).*1.
Proof.
  intros Hok. unfold getAll. rewrite <- list_fmap_compose.
  rewrite <- (sort_Permutation (λ e1 e2, keyCompare e1.1 e2.1) (map_to_list db))
    at 2.
  apply eq_subrelation; [apply _ |].
  apply Forall_fmap_ext_1, Forall_forall. intros [key o] Hin. simpl.
  apply elem_of_sort, elem_of_map_to_list in Hin. by apply Hok in Hin as [? _].
Qed.

Lemma getAll_NoDup_names (db : Store) :
  store_ok db → NoDup (name <$> getAll db).
Proof.
  intros Hok. rewrite (getAll_names _ Hok). apply NoDup_fst_map_to_list.
Qed.

Lemma store_ok_empty : store_ok ∅.
Proof. intros key o. by rewrite lookup_empty. Qed.

Lemma store_ok_insert (db : Store) (path : string) (o : IdbMetadata) :
  store_ok db → name o = path → type o = M_FILE →
  store_ok (<[path := o]> db).
Proof.
  intros Hok Hname Htype key o'. rewrite lookup_insert.
  case_decide as Hk; [| apply Hok].
  intros [= <-]. by subst.
Qed.

Lemma store_ok_delete (db : Store) (path : string) :
  store_ok db → store_ok (delete path db).
Proof.
  intros Hok key o Hkey. apply Hok.
  by apply lookup_delete_Some in Hkey as [_ ?].
Qed.

Lemma store_ok_storeOf (paths : list string) : store_ok (storeOf paths).
Proof.
  unfold storeOf. induction paths as [|path paths IH]; simpl.
  - apply store_ok_empty.
  - by apply store_ok_insert.
Qed.

(** [write] keeps the database a database of files. *)
Lemma store_ok_write now db path source :
  store_ok db → store_ok (write now db path source).2.
Proof.
  intros Hok. unfold write.
  destruct source as [events|yields].
  - destruct (streamHandler events []) as [[n| |] collected]; try done.
    by apply store_ok_insert.
  - by apply store_ok_insert.
Qed.

(** The visitor of [remove] changes the database by deletions only. *)
Lemma store_ok_deleteVisitor quiet file σ :
  store_ok (rs_db σ) → store_ok (rs_db (deleteVisitor quiet file σ).2).
Proof.
  intros Hok. unfold deleteVisitor.
  repeat case_match; cbn [snd rs_db]; try done; by apply store_ok_delete.
Qed.

Lemma store_ok_visitAll quiet files σ :
  store_ok (rs_db σ) → store_ok (rs_db (visitAll (deleteVisitor quiet) files σ).2).
Proof.
  revert σ. induction files as [|file files IH]; intros σ Hok; [done |].
  cbn [visitAll].
  pose proof (store_ok_deleteVisitor quiet file σ Hok) as Hok'.
  destruct (deleteVisitor quiet file σ) as [[[]| |] σ']; cbn [snd] in *;
    [by apply IH | done | done].
Qed.

(** [remove] keeps the database a database of files. *)
Lemma store_ok_remove localeCompare db path recursive quiet :
  store_ok db → store_ok (remove localeCompare db path recursive quiet).2.
Proof.
  intros Hok. unfold remove, _list.
  destruct (filtered localeCompare (getAll db) path recursive) as [f fe].
  assert (Hall : store_ok (rs_db (visitAll (deleteVisitor quiet)
                    (filter (λ o, type o = M_FILE) f)
                    (mkRemoveState db [] [])).2))
    by by apply store_ok_visitAll.
  assert (Hone : ∀ o, store_ok (rs_db (deleteVisitor quiet o
                                         (mkRemoveState db [] [])).2))
    by (intros o; by apply store_ok_deleteVisitor).
  destruct fe as [o|], recursive.
  - destruct (visitAll _ _ _) as [[l| |] σ]; cbn [snd] in *;
      repeat case_match; done.
  - specialize (Hone o).
    destruct (deleteVisitor quiet o _) as [[l| |] σ]; cbn [snd] in *;
      repeat case_match; done.
  - destruct (visitAll _ _ _) as [[l| |] σ]; cbn [snd] in *;
      repeat case_match; done.
  - destruct (visitAll _ _ _) as [[l| |] σ]; cbn [snd] in *;
      repeat case_match; done.
Qed.

(** ** The callback of [map] *)

Lemma mapEntry_fst pth recursive o foundExact :
  (mapEntry pth recursive o foundExact).1 = entryOf pth recursive o.
Proof.
  unfold entryOf, mapEntry.
  repeat (case_match; simpl; try done).
Qed.

Lemma mapEntry_snd pth recursive o foundExact :
  (mapEntry pth recursive o foundExact).2
  = if String.eqb (name o) pth then Some o else foundExact.
Proof.
  unfold mapEntry. repeat (case_match; simpl; try done).
Qed.

Lemma mapEntries_fst pth recursive l foundExact :
  (mapEntries pth recursive l foundExact).1 = entryOf pth recursive <$> l.
Proof.
  revert foundExact. induction l as [|o l IH]; intros foundExact; [done |].
  rewrite fmap_cons. cbn [mapEntries].
  destruct (mapEntry pth recursive o foundExact) as [r fe] eqn:Ho.
  specialize (IH fe). destruct (mapEntries pth recursive l fe) as [rs fe'].
  cbn [fst] in *. f_equal; [| done].
  by rewrite <- (mapEntry_fst pth recursive o foundExact), Ho.
Qed.

Lemma mapEntries_snd_cons pth recursive o l foundExact :
  (mapEntries pth recursive (o :: l) foundExact).2
  = (mapEntries pth recursive l
       (if String.eqb (name o) pth then Some o else foundExact)).2.
Proof.
  rewrite <- (mapEntry_snd pth recursive o foundExact). cbn [mapEntries].
  destruct (mapEntry pth recursive o foundExact) as [r fe]. cbn [snd].
  by destruct (mapEntries pth recursive l fe).
Qed.

(** [foundExact] is left alone when no record has the name [pth]. *)
Lemma mapEntries_snd_none pth recursive l foundExact :
  Forall (λ o, name o ≠ pth) l →
  (mapEntries pth recursive l foundExact).2 = foundExact.
Proof.
  revert foundExact. induction l as [|o l IH]; intros foundExact Hl; [done |].
  apply Forall_cons in Hl as [Ho Hl]. rewrite mapEntries_snd_cons.
  destruct (String.eqb_spec (name o) pth); [done | by apply IH].
Qed.

(** [foundExact] ends as the record named [pth] when the names are unique. *)
Lemma mapEntries_snd_unique pth recursive l foundExact o :
  NoDup (name <$> l) → o ∈ l → name o = pth →
  (mapEntries pth recursive l foundExact).2 = Some o.
Proof.
  revert foundExact. induction l as [|x l IH]; intros foundExact Hnd Hin Hname.
  - by apply elem_of_nil in Hin.
  - rewrite fmap_cons in Hnd. apply NoDup_cons in Hnd as [Hx Hnd].
    rewrite mapEntries_snd_cons.
    apply elem_of_cons in Hin as [<-|Hin].
    + rewrite Hname, String.eqb_refl. apply mapEntries_snd_none.
      apply Forall_forall. intros y Hy Heq. apply Hx.
      rewrite Hname, <- Heq. by apply list_elem_of_fmap_2.
    + by apply IH.
Qed.

(** [foundExact], when set, is a record named [pth]. *)
Lemma mapEntries_snd_Some pth recursive l foundExact o :
  (mapEntries pth recursive l foundExact).2 = Some o →
  foundExact = Some o ∨ (o ∈ l ∧ name o = pth).
Proof.
  revert foundExact. induction l as [|x l IH]; intros foundExact; [by left |].
  rewrite mapEntries_snd_cons. intros [H|[? ?]]%IH.
  - destruct (String.eqb_spec (name x) pth) as [Hx|]; [| by left].
    injection H as ->. right. split; [by left | done].
  - right. split; [by right | done].
Qed.

Lemma filterNonNull_fmap {A : Type} (f : A → option IdbMetadata) (l : list A) :
  filterNonNull (f <$> l) = omap f l.
Proof.
  unfold filterNonNull. induction l as [|x l IH]; [done |].
  rewrite fmap_cons. cbn [omap list_omap]. rewrite IH. by destruct (f x).
Qed.

Section ListingFacts.
Variable localeCompare : string → string → Z.

Lemma filtered_eq result pth recursive :
  filtered localeCompare result pth recursive
  = (firstOccurrences []
       (omap (entryOf pth recursive) (sort (byName localeCompare) result)),
     (mapEntries pth recursive (sort (byName localeCompare) result) None).2).
Proof.
  unfold filtered. fold (byName localeCompare).
  pose proof (mapEntries_fst pth recursive
                (sort (byName localeCompare) result) None) as Hfst.
  destruct (mapEntries pth recursive _ None) as [mapped fe]. simpl in *.
  by rewrite Hfst, filterIndexed_firstOfName, filterNonNull_fmap.
Qed.

(** Without a visitor [_list] resolves, with [listing]. *)
Lemma _list_no_visitor {S : Type} db pth recursive (σ : S) :
  _list localeCompare db pth recursive None σ
  = (Resolved (listing localeCompare db pth recursive), σ).
Proof.
  unfold _list, listing.
  destruct (filtered localeCompare (getAll db) pth recursive) as [f [fe|]];
    by destruct recursive.
Qed.

(** With a visitor, [_list] resolves with [listing] if it resolves. *)
Lemma _list_resolved {S : Type} db pth recursive
      (visitor : option (Visitor S)) (σ : S) l :
  (_list localeCompare db pth recursive visitor σ).1 = Resolved l →
  l = listing localeCompare db pth recursive.
Proof.
  unfold _list, listing.
  destruct (filtered localeCompare (getAll db) pth recursive) as [f [fe|]];
    destruct recursive, visitor as [v|]; simpl;
    repeat (case_match; simpl); congruence.
Qed.
End ListingFacts.

(** ** The exact match *)

Section ExactMatch.
Variable localeCompare : string → string → Z.

Lemma sorted_NoDup_names db :
  store_ok db → NoDup (name <$> sort (byName localeCompare) (getAll db)).
Proof.
  intros Hok. rewrite sort_Permutation. by apply getAll_NoDup_names.
Qed.

(** [foundExact] is the record stored under [pth]. *)
Lemma foundExact_stored db pth recursive o :
  store_ok db → db !! pth = Some o →
  (filtered localeCompare (getAll db) pth recursive).2 = Some o.
Proof.
  intros Hok Hpth. rewrite filtered_eq. cbn [snd].
  apply mapEntries_snd_unique.
  - by apply sorted_NoDup_names.
  - apply elem_of_sort, elem_of_getAll. by exists pth.
  - by apply Hok in Hpth as [? _].
Qed.

(** [foundExact] stays [null] when nothing is stored under [pth]. *)
Lemma foundExact_missing db pth recursive :
  store_ok db → db !! pth = None →
  (filtered localeCompare (getAll db) pth recursive).2 = None.
Proof.
  intros Hok Hpth. rewrite filtered_eq. cbn [snd].
  apply mapEntries_snd_none, Forall_forall.
  intros o [Ho _]%elem_of_sort%(store_ok_lookup _ _ Hok) Hname.
  congruence.
Qed.

(** C1. When a record is stored under the very path asked for, the
    one-level [_list] resolves with that record alone, whatever else the
    database holds; a visitor is called once, on that record, and [_list]
    resolves when the visitor's promise does. *)
Theorem exact_match_short_circuit db pth o :
  store_ok db → db !! pth = Some o →
  listing localeCompare db pth false = [o] ∧
  (∀ (S : Type) (σ : S),
      _list localeCompare db pth false None σ = (Resolved [o], σ)) ∧
  (∀ (S : Type) (visitor : Visitor S) (σ : S),
      _list localeCompare db pth false (Some visitor) σ
      = (match (visitor o σ).1 with
         | Resolved _ => Resolved [o]
         | _ => Pending
         end, (visitor o σ).2)) ∧
  _list localeCompare db pth false (Some recordCalls) [] = (Resolved [o], [o]).
Proof.
  intros Hok Hpth.
  pose proof (foundExact_stored db pth false o Hok Hpth) as Hfe.
  assert (Hvis : ∀ (S : Type) (visitor : Visitor S) (σ : S),
             _list localeCompare db pth false (Some visitor) σ
             = (match (visitor o σ).1 with
                | Resolved _ => Resolved [o]
                | _ => Pending
                end, (visitor o σ).2)).
  { intros S visitor σ. unfold _list.
    destruct (filtered localeCompare (getAll db) pth false) as [f fe].
    simpl in Hfe. subst fe. by destruct (visitor o σ) as [[]]. }
  repeat split.
  - unfold listing.
    destruct (filtered localeCompare (getAll db) pth false) as [f fe].
    simpl in Hfe. by subst fe.
  - intros S σ. unfold _list.
    destruct (filtered localeCompare (getAll db) pth false) as [f fe].
    simpl in Hfe. by subst fe.
  - exact Hvis.
  - by rewrite Hvis.
Qed.
End ExactMatch.

(** The instance of [exact_match_short_circuit] for the path [a] over the
    files [a], [a/b], [a/c/d] and [ab], which all match [a] as a prefix. *)
Lemma exact_match_short_circuit_witness :
  let db := storeOf ["a"; "a/b"; "a/c/d"; "ab"] in
  let o := fileOf "a" [] in
  listing keyCompare db "a" false = [o] ∧
  (∀ (S : Type) (σ : S), _list keyCompare db "a" false None σ = (Resolved [o], σ)) ∧
  (∀ (S : Type) (visitor : Visitor S) (σ : S),
      _list keyCompare db "a" false (Some visitor) σ
      = (match (visitor o σ).1 with
         | Resolved _ => Resolved [o]
         | _ => Pending
         end, (visitor o σ).2)) ∧
  _list keyCompare db "a" false (Some recordCalls) [] = (Resolved [o], [o]).
Proof.
  apply (exact_match_short_circuit keyCompare
           (storeOf ["a"; "a/b"; "a/c/d"; "ab"]) "a" (fileOf "a" [])).
  - apply store_ok_storeOf.
  - reflexivity.
Defined.

(** ** One level of the tree *)

(** The ways in which the callback of [map] keeps a record in a one-level
    listing. *)
Lemma entryOf_false_inv pth o e :
  entryOf pth false o = Some e →
  (name o = pth ∧ e = o) ∨
  (name o ≠ pth ∧ startsWith (name o) (normMatch pth) = true ∧
   String.length (normMatch pth) < String.length (name o) ∧
   ((indexOf (name o) "/" (String.length (normMatch pth) + 1) = None ∧ e = o) ∨
    (∃ nextSlash,
        indexOf (name o) "/" (String.length (normMatch pth) + 1) = Some nextSlash ∧
        e = mkDir (substring (name o) 0 nextSlash)))).
Proof.
  unfold entryOf, mapEntry.
  destruct (String.eqb_spec (name o) pth) as [Heq|Hne]; simpl.
  - intros [= <-]. by left.
  - destruct (startsWith (name o) pth); [| done].
    destruct (startsWith (name o) (normMatch pth)); [| done].
    destruct (Nat.ltb_spec (String.length (normMatch pth))
                           (String.length (name o))) as [Hlt|]; [| done].
    simpl. right. repeat split; [done | done |].
    destruct (indexOf (name o) "/" (String.length (normMatch pth) + 1))
      as [nextSlash|]; simpl in H; injection H as <-.
    + right. by exists nextSlash.
    + by left.
Qed.

(** A record whose name goes beyond the normalized prefix is not the exact
    match and matches the path as a prefix. *)
Lemma beyond_normMatch pth o :
  startsWith (name o) (normMatch pth) = true →
  String.length (normMatch pth) < String.length (name o) →
  String.eqb (name o) pth = false ∧ startsWith (name o) pth = true.
Proof.
  intros Hstart Hlen. split.
  - destruct (String.eqb_spec (name o) pth) as [Heq|]; [| done].
    pose proof (length_normMatch pth). rewrite Heq in Hlen. lia.
  - eapply startsWith_trans; [done | apply startsWith_normMatch].
Qed.

Lemma mapEntry_beyond pth o foundExact :
  startsWith (name o) (normMatch pth) = true →
  String.length (normMatch pth) < String.length (name o) →
  mapEntry pth false o foundExact
  = (match indexOf (name o) "/" (String.length (normMatch pth) + 1) with
     | None => Some o
     | Some nextSlash => Some (mkDir (substring (name o) 0 nextSlash))
     end, foundExact).
Proof.
  intros Hstart Hlen. destruct (beyond_normMatch _ _ Hstart Hlen) as [Hne Hpre].
  unfold mapEntry. rewrite Hne, Hpre, Hstart.
  destruct (Nat.ltb_spec (String.length (normMatch pth))
                         (String.length (name o))); [| lia].
  simpl. by destruct (indexOf _ _ _).
Qed.

(** C3, as the code has it. In a one-level listing, a record whose name goes
    beyond the normalized prefix and holds a separator at an index greater
    than the length of that prefix gives a directory entry named by the
    record's name cut just before that separator: the separator itself is
    not part of the directory's name. *)
Theorem directory_entry_name pth o foundExact nextSlash :
  startsWith (name o) (normMatch pth) = true →
  String.length (normMatch pth) < String.length (name o) →
  indexOf (name o) "/" (String.length (normMatch pth) + 1) = Some nextSlash →
  mapEntry pth false o foundExact
  = (Some (mkDir (substring (name o) 0 nextSlash)), foundExact) ∧
  String.length (substring (name o) 0 nextSlash) = nextSlash ∧
  String.length (normMatch pth) < nextSlash ∧
  ∃ rest, name o = substring (name o) 0 nextSlash +:+ "/" +:+ rest.
Proof.
  intros Hstart Hlen Hidx.
  rewrite (mapEntry_beyond _ _ _ Hstart Hlen), Hidx.
  apply indexOf_slash_Some in Hidx as (Hle & _ & Hk & Hrest).
  repeat split; [done | lia | done].
Qed.

(** The instance of [directory_entry_name] for the record [a/b/c] listed
    under [a]. *)
Lemma directory_entry_name_witness :
  mapEntry "a" false (fileOf "a/b/c" []) None = (Some (mkDir "a/b"), None) ∧
  String.length "a/b" = 3 ∧
  String.length (normMatch "a") < 3 ∧
  ∃ rest, "a/b/c" = "a/b" +:+ "/" +:+ rest.
Proof.
  apply (directory_entry_name "a" (fileOf "a/b/c" []) None 3).
  - reflexivity.
  - vm_compute. lia.
  - reflexivity.
Defined.

(** C3, as it is worded, fails: listing [a] over the single file [a/b/c]
    finds the separator at index 3 and names the directory [a/b], which is
    not the substring up to and including the separator, [a/b/], and does
    not end with the separator. *)
Lemma directory_entry_name_counterexample :
  let o := fileOf "a/b/c" [] in
  startsWith (name o) (normMatch "a") = true ∧
  String.length (normMatch "a") < String.length (name o) ∧
  indexOf (name o) "/" (String.length (normMatch "a") + 1) = Some 3 ∧
  entryOf "a" false o = Some (mkDir "a/b") ∧
  listing keyCompare (storeOf ["a/b/c"]) "a" false = [mkDir "a/b"] ∧
  substring (name o) 0 (3 + 1) = "a/b/" ∧
  name (mkDir "a/b") ≠ substring (name o) 0 (3 + 1) ∧
  endsWith (name (mkDir "a/b")) "/" = false.
Proof. vm_compute. repeat split; try done. lia. Qed.

(** What the callback keeps in a one-level listing is named [pth] or has a
    name longer than the normalized prefix. *)
Lemma entryOf_false_name pth o e :
  entryOf pth false o = Some e →
  name e = pth ∨ String.length (normMatch pth) < String.length (name e).
Proof.
  intros [[? ->]|(_ & _ & Hlen & [[_ ->]|(k & Hk & ->)])]%entryOf_false_inv.
  - by left.
  - by right.
  - right. apply indexOf_slash_Some in Hk as (? & _ & Hk & _).
    simpl. lia.
Qed.

Section Boundary.
Variable localeCompare : string → string → Z.

(** The entries of a one-level listing are named [pth] or have a name longer
    than the normalized prefix. *)
Lemma listing_false_name db pth e :
  e ∈ listing localeCompare db pth false →
  name e = pth ∨ String.length (normMatch pth) < String.length (name e).
Proof.
  unfold listing. rewrite filtered_eq.
  assert (Hfilt : e ∈ firstOccurrences []
                    (omap (entryOf pth false)
                       (sort (byName localeCompare) (getAll db))) →
                  name e = pth ∨
                  String.length (normMatch pth) < String.length (name e)).
  { intros [(o & _ & Ho)%list_elem_of_omap _]%firstOccurrences_elem_of.
    by eapply entryOf_false_name. }
  destruct (mapEntries pth false _ None).2 as [fe|] eqn:Hfe; [| done].
  intros ->%list_elem_of_singleton.
  apply mapEntries_snd_Some in Hfe as [|[_ ?]]; [done | by left].
Qed.

(** C10. For a non-empty path that does not end with the separator, a record
    named by the path followed by the separator is dropped by a one-level
    listing: the callback of [map] returns [null] for it and leaves
    [foundExact] alone, and no entry of the result, file or directory,
    carries its name. *)
Theorem prefix_boundary_record_excluded db pth :
  pth ≠ "" → endsWith pth "/" = false →
  (∀ o foundExact, name o = pth +:+ "/" →
                   mapEntry pth false o foundExact = (None, foundExact)) ∧
  (∀ e, e ∈ listing localeCompare db pth false → name e ≠ pth +:+ "/") ∧
  (∀ (S : Type) (visitor : option (Visitor S)) (σ : S) l,
      (_list localeCompare db pth false visitor σ).1 = Resolved l →
      ∀ e, e ∈ l → name e ≠ pth +:+ "/").
Proof.
  intros Hne Hend. pose proof (normMatch_append pth Hne Hend) as Hnorm.
  assert (Hlisting : ∀ e, e ∈ listing localeCompare db pth false →
                          name e ≠ pth +:+ "/").
  { intros e [He|He]%listing_false_name Heq.
    - rewrite He in Heq. apply (f_equal String.length) in Heq.
      rewrite string_length_app in Heq. simpl in Heq. lia.
    - rewrite Hnorm, Heq in He. lia. }
  repeat split.
  - intros o foundExact Ho. unfold mapEntry.
    destruct (String.eqb_spec (name o) pth) as [Heq|_].
    { rewrite Ho in Heq. apply (f_equal String.length) in Heq.
      rewrite string_length_app in Heq. simpl in Heq. lia. }
    rewrite Hnorm, <- Ho.
    destruct (Nat.ltb_spec (String.length (name o)) (String.length (name o)));
      [lia |].
    rewrite andb_false_r. by destruct (startsWith (name o) pth).
  - exact Hlisting.
  - intros S visitor σ l Hl. apply _list_resolved in Hl as ->.
    exact Hlisting.
Qed.
End Boundary.

(** The instance of [prefix_boundary_record_excluded] for the path [a] over
    the files [a/], [a/b] and [a/c/d]: the record [a/] is not listed. *)
Lemma prefix_boundary_record_excluded_witness :
  let db := storeOf ["a/"; "a/b"; "a/c/d"] in
  listing keyCompare db "a" false = [fileOf "a/b" []; mkDir "a/c"] ∧
  (∀ o foundExact, name o = "a" +:+ "/" →
                   mapEntry "a" false o foundExact = (None, foundExact)) ∧
  (∀ e, e ∈ listing keyCompare db "a" false → name e ≠ "a" +:+ "/") ∧
  (∀ (S : Type) (visitor : option (Visitor S)) (σ : S) l,
      (_list keyCompare db "a" false visitor σ).1 = Resolved l →
      ∀ e, e ∈ l → name e ≠ "a" +:+ "/").
Proof.
  split; [reflexivity |].
  apply (prefix_boundary_record_excluded keyCompare
           (storeOf ["a/"; "a/b"; "a/c/d"]) "a").
  - discriminate.
  - reflexivity.
Defined.


(** ** [remove] of nothing *)

Section RemoveNothing.
Variable localeCompare : string → string → Z.

(** C8. When the enumeration of [remove] matches no entry, [remove] is
    rejected with [MobilettoNotFoundError(path)] unless it is quiet, in
    which case it resolves with the empty array; the database is left as it
    was in both cases. *)
Theorem remove_nothing_matched db path recursive :
  listing localeCompare db path recursive = [] →
  remove localeCompare db path recursive false
  = (Rejected (MobilettoNotFoundError path), db) ∧
  remove localeCompare db path recursive true = (Resolved (Paths []), db).
Proof.
  unfold listing, remove, _list.
  destruct (filtered localeCompare (getAll db) path recursive) as [f [fe|]];
    destruct recursive; try done; intros ->; by rewrite filter_nil.
Qed.

End RemoveNothing.

(** The instance of [remove_nothing_matched] for the path [missing]. *)
Lemma remove_nothing_matched_witness :
  remove keyCompare (storeOf ["a/x.txt"; "b.txt"]) "missing" false false
  = (Rejected (MobilettoNotFoundError "missing"),
     storeOf ["a/x.txt"; "b.txt"]) ∧
  remove keyCompare (storeOf ["a/x.txt"; "b.txt"]) "missing" false true
  = (Resolved (Paths []), storeOf ["a/x.txt"; "b.txt"]).
Proof.
  apply (remove_nothing_matched keyCompare (storeOf ["a/x.txt"; "b.txt"])
           "missing" false).
  vm_compute. reflexivity.
Defined.


(** ** [read] *)

Section ReadFacts.
Variable utf8Encode : string → Buffer.
Variable stringToUint8 : string → byte.

(** C9. Reading a record whose [bytes] array is empty calls neither
    callback and settles nothing: when the transaction completes,
    [bytesRead] is zero and [notFound] is unset, so the promise is neither
    resolved nor rejected. *)
Theorem read_empty_payload db path o endCallback :
  db !! path = Some o → bytes o = Some [] →
  read utf8Encode stringToUint8 db path endCallback = ([], Pending).
Proof. intros Hpath Hbytes. unfold read. by rewrite Hpath; simpl; rewrite Hbytes. Qed.

(** A record whose array holds numbers is read back as those bytes, in one
    chunk, unless there are none. *)
Lemma read_numbers db path o content endCallback :
  db !! path = Some o → bytes o = Some (ENum <$> content) → content ≠ [] →
  read utf8Encode stringToUint8 db path endCallback
  = (Callback content :: (if endCallback then [EndCallback] else []),
     Resolved (length content)).
Proof.
  intros Hpath Hbytes Hne. unfold read. rewrite Hpath. simpl. rewrite Hbytes.
  destruct content as [|b content]; [done |].
  rewrite !fmap_cons. cbn [readRequest_onsuccess].
  assert (Hbuf : bufferFromArray stringToUint8 (ENum b :: (ENum <$> content))
                 = b :: content).
  { unfold bufferFromArray. rewrite fmap_cons. f_equal.
    rewrite <- list_fmap_compose. apply list_fmap_id. }
  by rewrite Hbuf.
Qed.
End ReadFacts.

(** The instance of [read_empty_payload] for an empty file stored under
    [p]. *)
Lemma read_empty_payload_witness :
  read (λ _, []) (λ _, x00%byte) (storeOf ["p"]) "p" true = ([], Pending).
Proof.
  apply (read_empty_payload (λ _, []) (λ _, x00%byte) (storeOf ["p"]) "p"
           (fileOf "p" []) true); reflexivity.
Defined.

(** ** The loop of [write] *)

(** The three ways through the body of the loop. *)
Lemma pullLoop_chunk chunk generator nullCount bytes :
  pullLoop (Some chunk) generator nullCount bytes
  = pullLoop (next generator).1 (next generator).2 nullCount (push bytes chunk).
Proof. by rewrite pullLoop_equation_1. Qed.

Lemma pullLoop_null generator nullCount bytes :
  nullCount < 5 →
  pullLoop None generator nullCount bytes
  = pullLoop (next generator).1 (next generator).2 (S nullCount) bytes.
Proof.
  intros Hn. rewrite pullLoop_equation_2.
  destruct (decide (nullCount < 5)); [done | lia].
Qed.

Lemma pullLoop_exit generator nullCount bytes :
  ¬ nullCount < 5 → pullLoop None generator nullCount bytes = bytes.
Proof.
  intros Hn. rewrite pullLoop_equation_2.
  destruct (decide (nullCount < 5)); [lia | done].
Qed.

(** Once the generator is done the loop counts up to 5 and leaves [bytes]
    as it is. *)
Lemma pullLoop_done (k nullCount : nat) (bytes : list BytesElem) :
  5 - nullCount ≤ k → pullLoop None [] nullCount bytes = bytes.
Proof.
  revert nullCount. induction k as [|k IH]; intros nullCount Hk.
  - apply pullLoop_exit. lia.
  - destruct (decide (nullCount < 5)); [| by apply pullLoop_exit].
    rewrite pullLoop_null; [| done]. apply IH. lia.
Qed.

(** The loop appends what [collected] tells. *)
Lemma pullLoop_collected (generator : list (option Buffer)) :
  ∀ chunk nullCount bytes,
    pullLoop chunk generator nullCount bytes
    = bytes ++ collected (chunk :: generator) nullCount.
Proof.
  induction generator as [|value generator IH]; intros [chunk|] nullCount bytes.
  - rewrite pullLoop_chunk. cbn [next fst snd].
    rewrite (pullLoop_done 5); [| lia]. unfold push. simpl.
    by rewrite app_nil_r.
  - rewrite (pullLoop_done 5); [| lia]. simpl.
    destruct (decide (nullCount < 5)); by rewrite app_nil_r.
  - rewrite pullLoop_chunk. cbn [next fst snd]. rewrite IH. unfold push.
    rewrite <- app_assoc. done.
  - destruct (decide (nullCount < 5)) as [Hn|Hn].
    + rewrite pullLoop_null; [| done]. cbn [next fst snd]. rewrite IH.
      cbn [collected]. by destruct (decide (nullCount < 5)).
    + rewrite pullLoop_exit; [| done]. cbn [collected].
      destruct (decide (nullCount < 5)); [done |]. by rewrite app_nil_r.
Qed.

Lemma countNull_cons_Some chunk yields :
  countNull (Some chunk :: yields) = countNull yields.
Proof. unfold countNull. by rewrite filter_cons_False. Qed.

Lemma countNull_cons_None yields :
  countNull (None :: yields) = S (countNull yields).
Proof. unfold countNull. by rewrite filter_cons_True. Qed.

Lemma chunkBytes_cons_Some chunk yields :
  chunkBytes (Some chunk :: yields) = (ENum <$> chunk) ++ chunkBytes yields.
Proof. unfold chunkBytes. simpl. by rewrite fmap_app. Qed.

Lemma chunkBytes_cons_None yields : chunkBytes (None :: yields) = chunkBytes yields.
Proof. done. Qed.

(** Within the budget of five falsy values, every chunk is collected. *)
Lemma collected_within_budget yields nullCount :
  countNull yields + nullCount ≤ 5 →
  collected yields nullCount = chunkBytes yields.
Proof.
  revert nullCount. induction yields as [|[chunk|] yields IH]; intros n Hn.
  - done.
  - rewrite countNull_cons_Some in Hn. rewrite chunkBytes_cons_Some. simpl.
    by rewrite IH.
  - rewrite countNull_cons_None in Hn. rewrite chunkBytes_cons_None. simpl.
    destruct (decide (n < 5)); [| lia]. apply IH. lia.
Qed.

(** The falsy value that comes when the budget is used up ends the
    collection, whatever follows it. *)
Lemma collected_budget_spent pre post nullCount :
  countNull pre + nullCount = 5 →
  collected (pre ++ None :: post) nullCount = chunkBytes pre.
Proof.
  revert nullCount. induction pre as [|[chunk|] pre IH]; intros n Hn.
  - rewrite app_nil_l. unfold countNull in Hn. simpl in *.
    destruct (decide (n < 5)); [lia | done].
  - rewrite countNull_cons_Some in Hn. rewrite chunkBytes_cons_Some.
    rewrite <- app_comm_cons. simpl. by rewrite IH.
  - rewrite countNull_cons_None in Hn. rewrite chunkBytes_cons_None.
    rewrite <- app_comm_cons. simpl.
    destruct (decide (n < 5)); [| lia]. apply IH. lia.
Qed.

Lemma write_generator now db path yields :
  write now db path (Generator yields)
  = stored now db path (collected yields 0).
Proof.
  unfold write, stored. rewrite pullLoop_collected. rewrite app_nil_l.
  by destruct yields.
Qed.

(** C4, as the code has it. [write] counts the falsy values of a pull-style
    source all along, not run by run: as long as the source has yielded at
    most five of them every chunk is appended, in the order of the pulls,
    and the sixth one ends the aggregation, with the chunks pulled before
    it. *)
Theorem write_generator_null_budget now db path :
  (∀ yields, countNull yields ≤ 5 →
     write now db path (Generator yields)
     = stored now db path (chunkBytes yields)) ∧
  (∀ pre post, countNull pre = 5 →
     write now db path (Generator (pre ++ None :: post))
     = stored now db path (chunkBytes pre)).
Proof.
  split.
  - intros yields Hn. rewrite write_generator, collected_within_budget; [done | lia].
  - intros pre post Hn. rewrite write_generator, collected_budget_spent; [done | lia].
Qed.

(** The instance of [write_generator_null_budget] for a source of two
    chunks with a falsy value in between, and for [sparseYields] cut after
    its fifth falsy value. *)
Lemma write_generator_null_budget_witness :
  write 0 ∅ "p" (Generator [Some [x01]; None; Some [x02]]%byte)
  = stored 0 ∅ "p" [ENum x01; ENum x02]%byte ∧
  write 0 ∅ "p" (Generator (take 10 sparseYields ++ None :: drop 11 sparseYields))
  = stored 0 ∅ "p" [ENum x01; ENum x02; ENum x03; ENum x04; ENum x05]%byte.
Proof.
  destruct (write_generator_null_budget 0 ∅ "p") as [Hall Hcut]. split.
  - apply (Hall [Some [x01]; None; Some [x02]]%byte). vm_compute. lia.
  - apply (Hcut (take 10 sparseYields) (drop 11 sparseYields)). reflexivity.
Defined.

(** C4, as it is worded, fails: in [sparseYields] no two falsy values are
    consecutive (the longest run has length 1), yet the aggregation ends at the sixth of them and the
    chunk that follows it is not appended. *)
Lemma write_generator_consecutive_counterexample :
  sparseYields
  = [None; Some [x01]; None; Some [x02]; None; Some [x03];
     None; Some [x04]; None; Some [x05]; None; Some [x06]]%byte ∧
  longestNullRun sparseYields = 1 ∧
  write 0 ∅ "p" (Generator sparseYields)
  = stored 0 ∅ "p" [ENum x01; ENum x02; ENum x03; ENum x04; ENum x05]%byte ∧
  write 0 ∅ "p" (Generator sparseYields)
  ≠ stored 0 ∅ "p" (chunkBytes sparseYields).
Proof.
  split; [done |]. split; [done |].
  rewrite write_generator.
  assert (Hc : collected sparseYields 0
               = [ENum x01; ENum x02; ENum x03; ENum x04; ENum x05]%byte)
    by by vm_compute.
  rewrite Hc. split; [done |].
  intros Heq. apply (f_equal fst) in Heq. vm_compute in Heq. discriminate.
Qed.


(** ** Writing, then reading *)

Section WriteRead.
Variable utf8Encode : string → Buffer.
Variable stringToUint8 : string → byte.

(** What was written from buffers is read back unchanged, in one chunk,
    when there is at least one byte. *)
Lemma write_then_read now db path yields content endCallback :
  countNull yields ≤ 5 → concat (omap id yields) = content → content ≠ [] →
  (write now db path (Generator yields)).1 = Resolved (length content) ∧
  read utf8Encode stringToUint8 (write now db path (Generator yields)).2
       path endCallback
  = (Callback content :: (if endCallback then [EndCallback] else []),
     Resolved (length content)).
Proof.
  intros Hn Hcontent Hne.
  rewrite write_generator, collected_within_budget by lia.
  unfold stored, chunkBytes.
  change (concat (omap id yields)) with (concat (omap id yields) : list byte).
  subst content. cbn [fst snd].
  split; [by rewrite length_fmap |].
  eapply read_numbers; [apply lookup_insert_eq | done | done].
Qed.

(** C6 at the input on which it fails. Writing no byte at all resolves with
    0 and stores a record with an empty array; reading the path back calls
    no callback and leaves the promise of [read] unsettled, where the claim
    asks for one (empty) chunk and the value 0. *)
Theorem write_empty_then_read_stalls now db path endCallback :
  write now db path (Generator []) = stored now db path [] ∧
  (write now db path (Generator [])).1 = Resolved 0 ∧
  read utf8Encode stringToUint8 (write now db path (Generator [])).2
       path endCallback
  = ([], Pending).
Proof.
  rewrite write_generator. cbn [collected]. repeat split.
  unfold stored, read. cbn [snd]. by rewrite lookup_insert_eq.
Qed.
End WriteRead.

(** ** The whole tree *)

Lemma entryOf_root_recursive o : entryOf "" true o = Some o.
Proof.
  unfold entryOf, mapEntry.
  destruct (String.eqb (name o) ""); [done |].
  by destruct (name o).
Qed.

Lemma omap_Some {A : Type} (f : A → option A) (l : list A) :
  (∀ x, x ∈ l → f x = Some x) → omap f l = l.
Proof.
  induction l as [|x l IH]; intros H; [done |].
  cbn [omap list_omap]. rewrite (H x); [| by left].
  rewrite IH; [done |]. intros y Hy. apply H. by right.
Qed.

Lemma consistentComparator_byName localeCompare :
  consistentComparator localeCompare →
  consistentComparator (byName localeCompare).
Proof.
  intros [Hasym Htrans]. split.
  - intros x y. apply Hasym.
  - intros x y z. apply Htrans.
Qed.

Section WholeTree.
Variable localeCompare : string → string → Z.

(** The records in the order of the names are what a recursive listing of
    the empty path gives. *)
Lemma listing_root_recursive db :
  store_ok db →
  listing localeCompare db "" true = sort (byName localeCompare) (getAll db).
Proof.
  intros Hok. unfold listing. rewrite filtered_eq.
  rewrite omap_Some by (intros; apply entryOf_root_recursive).
  rewrite firstOccurrences_id.
  - by destruct (mapEntries "" true _ None).2.
  - by apply sorted_NoDup_names.
  - apply Forall_forall. intros x _. apply not_elem_of_nil.
Qed.

(** C5. The recursive listing of the empty path resolves with the stored
    records, each of them once and nothing else (so no directory entry), in
    the order [localeCompare] puts their names in. *)
Theorem list_root_recursive db :
  store_ok db → consistentComparator localeCompare →
  let l := sort (byName localeCompare) (getAll db) in
  (∀ (S : Type) (σ : S),
      _list localeCompare db "" true None σ = (Resolved l, σ)) ∧
  (∀ o, o ∈ l ↔ ∃ key, db !! key = Some o) ∧
  NoDup l ∧
  Forall (λ o, type o = M_FILE) l ∧
  StronglySorted (λ o1 o2, (localeCompare (name o1) (name o2) <= 0)%Z) l.
Proof.
  intros Hok Hcmp l. subst l. repeat split.
  - intros S σ. by rewrite _list_no_visitor, listing_root_recursive.
  - intros Ho. by apply elem_of_sort, elem_of_getAll in Ho.
  - intros Ho. by apply elem_of_sort, elem_of_getAll.
  - eapply NoDup_fmap_1. by apply sorted_NoDup_names.
  - apply Forall_forall. intros o Ho%elem_of_sort.
    by apply (store_ok_lookup _ _ Hok) in Ho as [_ ?].
  - apply consistentComparator_byName in Hcmp as [Hasym Htrans].
    by apply (sort_StronglySorted (byName localeCompare)).
Qed.
End WholeTree.

(** The order of the code units is a consistent comparator. *)
Lemma keyCompare_le (k1 k2 : string) :
  (keyCompare k1 k2 <= 0)%Z ↔ String.le k1 k2.
Proof.
  unfold keyCompare, String.le, String.leb.
  destruct (String.compare k1 k2); simpl; split; (done || lia).
Qed.

Lemma keyCompare_consistent : consistentComparator keyCompare.
Proof.
  split.
  - intros x y Hxy. unfold keyCompare in *.
    rewrite String.compare_antisym.
    destruct (String.compare x y); simpl in *; lia.
  - intros x y z. rewrite !keyCompare_le. apply transitivity.
Qed.

(** The instance of [list_root_recursive] for the files [b.txt], [a/y.txt]
    and [a/x.txt] under the order of the code units. *)
Lemma list_root_recursive_witness :
  let db := storeOf ["b.txt"; "a/y.txt"; "a/x.txt"] in
  let l := sort (byName keyCompare) (getAll db) in
  l = [fileOf "a/x.txt" []; fileOf "a/y.txt" []; fileOf "b.txt" []] ∧
  (∀ (S : Type) (σ : S), _list keyCompare db "" true None σ = (Resolved l, σ)) ∧
  (∀ o, o ∈ l ↔ ∃ key, db !! key = Some o) ∧
  NoDup l ∧
  Forall (λ o, type o = M_FILE) l ∧
  StronglySorted (λ o1 o2, (keyCompare (name o1) (name o2) <= 0)%Z) l.
Proof.
  split; [reflexivity |].
  apply (list_root_recursive keyCompare
           (storeOf ["b.txt"; "a/y.txt"; "a/x.txt"])).
  - apply store_ok_storeOf.
  - apply keyCompare_consistent.
Defined.

(** ** Recursive listing and [remove] *)

Lemma prefix_refl (s : string) : String.prefix s s = true.
Proof. rewrite <- (string_app_nil_r s) at 2. apply prefix_app. Qed.

Lemma entryOf_recursive pth o :
  entryOf pth true o = if startsWith (name o) pth then Some o else None.
Proof.
  unfold entryOf, mapEntry.
  destruct (String.eqb_spec (name o) pth) as [->|_]; simpl.
  - unfold startsWith. by rewrite prefix_refl.
  - by destruct (startsWith (name o) pth).
Qed.

Lemma omap_guard {A : Type} (P : A → bool) (l : list A) :
  omap (λ x, if P x then Some x else None) l = filter (λ x, P x = true) l.
Proof.
  induction l as [|x l IH]; [done |].
  cbn [omap list_omap]. rewrite IH.
  destruct (P x) eqn:HP.
  - by rewrite filter_cons_True.
  - rewrite filter_cons_False; [done | congruence].
Qed.

Lemma filter_all {A : Type} (P : A → Prop) `{∀ x, Decision (P x)} (l : list A) :
  Forall P l → filter P l = l.
Proof.
  induction 1 as [|x l Hx _ IH]; [done |].
  by rewrite filter_cons_True, IH.
Qed.

Section RecursiveListing.
Variable localeCompare : string → string → Z.

(** A recursive listing holds the stored records whose name starts with
    the path, in the order of the names. *)
Lemma listing_recursive db pth :
  store_ok db →
  listing localeCompare db pth true
  = filter (λ o, startsWith (name o) pth = true)
           (sort (byName localeCompare) (getAll db)).
Proof.
  intros Hok. unfold listing. rewrite filtered_eq. cbn [fst snd].
  rewrite (list_omap_ext _ (λ o, if startsWith (name o) pth then Some o else None)
             _ (sort (byName localeCompare) (getAll db))).
  2: { apply Forall2_same_length_lookup_2; [done |].
       intros i x y Hx Hy. rewrite Hx in Hy. injection Hy as <-.
       by rewrite entryOf_recursive. }
  rewrite omap_guard, firstOccurrences_id.
  - by destruct (mapEntries pth true _ None).2.
  - eapply sublist_NoDup; [by apply sorted_NoDup_names |].
    apply fmap_sublist, sublist_filter.
  - apply Forall_forall. intros x _. apply not_elem_of_nil.
Qed.

Lemma elem_of_listing_recursive db pth o :
  store_ok db →
  o ∈ listing localeCompare db pth true
  ↔ db !! name o = Some o ∧ startsWith (name o) pth = true.
Proof.
  intros Hok. rewrite listing_recursive, list_elem_of_filter, elem_of_sort by done.
  split.
  - intros [? Ho]. by apply (store_ok_lookup _ _ Hok) in Ho as [? _].
  - intros [? Ho]. split; [done |]. apply elem_of_getAll. by exists (name o).
Qed.

Lemma listing_recursive_NoDup db pth :
  store_ok db → NoDup (name <$> listing localeCompare db pth true).
Proof.
  intros Hok. rewrite listing_recursive by done.
  eapply sublist_NoDup; [by apply sorted_NoDup_names |].
  apply fmap_sublist, sublist_filter.
Qed.
End RecursiveListing.

(** The database after the deletion of the records of [l]. *)
Lemma lookup_foldl_delete (l : list IdbMetadata) (db : Store) (key : string) :
  foldl (λ d o, delete (name o) d) db l !! key
  = if decide (key ∈ name <$> l) then None else db !! key.
Proof.
  revert db. induction l as [|o l IH]; intros db; [done |].
  cbn [foldl]. rewrite IH, fmap_cons.
  destruct (decide (key ∈ name <$> l)) as [Hin|Hnin].
  - rewrite decide_True; [done | by right].
  - destruct (decide (key = name o)) as [->|Hne].
    + rewrite decide_True; [| by left]. apply lookup_delete_eq.
    + rewrite decide_False.
      * by apply lookup_delete_ne.
      * rewrite elem_of_cons. tauto.
Qed.

(** Visiting stored files of distinct names with the visitor of [remove]
    deletes each of them and notes its path. *)
Lemma visitAll_deleteVisitor quiet (l : list IdbMetadata) (σ : RemoveState) :
  NoDup (name <$> l) →
  Forall (λ o, type o = M_FILE ∧ is_Some (rs_db σ !! name o)) l →
  visitAll (deleteVisitor quiet) l σ
  = (Resolved (),
     mkRemoveState (foldl (λ d o, delete (name o) d) (rs_db σ) l)
                   (deleteErrors σ) (deletedFiles σ ++ (name <$> l))).
Proof.
  revert σ. induction l as [|o l IH]; intros σ Hnd Hl.
  - simpl. rewrite app_nil_r. by destruct σ.
  - rewrite fmap_cons in Hnd. apply NoDup_cons in Hnd as [Ho Hnd].
    apply Forall_cons in Hl as [[Htype [o' Hfound]] Hl].
    cbn [visitAll]. unfold deleteVisitor at 1.
    rewrite decide_True by done. rewrite Hfound.
    rewrite IH; [| done |].
    + cbn [rs_db deleteErrors deletedFiles foldl]. rewrite fmap_cons.
      by rewrite <- app_assoc.
    + cbn [rs_db]. apply Forall_forall. intros x Hx.
      pose proof (proj1 (Forall_forall _ _) Hl x Hx) as [? ?].
      split; [done |]. rewrite lookup_delete_ne; [done |].
      intros Heq. apply Ho. rewrite Heq. by apply list_elem_of_fmap_2.
Qed.

Section RemoveRecursive.
Variable localeCompare : string → string → Z.

(** A recursive [_list] visits the files of [listing] and resolves with
    [listing] when no visit fails. *)
Lemma _list_recursive_visitor {S : Type} db pth (visitor : Visitor S) (σ : S) :
  _list localeCompare db pth true (Some visitor) σ
  = match visitAll visitor
            (filter (λ o, type o = M_FILE)
                    (listing localeCompare db pth true)) σ with
    | (Resolved _, σ') => (Resolved (listing localeCompare db pth true), σ')
    | (_, σ') => (Pending, σ')
    end.
Proof.
  unfold _list, listing.
  by destruct (filtered localeCompare (getAll db) pth true) as [f [fe|]].
Qed.

(** What a recursive, non-quiet [remove] does on a database of files. *)
Lemma remove_recursive_eq db path :
  store_ok db →
  let files := listing localeCompare db path true in
  remove localeCompare db path true false
  = (match files with
     | [] => Rejected (MobilettoNotFoundError path)
     | [file] => Resolved (OnePath (name file))
     | _ => Resolved (Paths (name <$> files))
     end,
     foldl (λ d o, delete (name o) d) db files).
Proof.
  intros Hok files. unfold remove. rewrite _list_recursive_visitor.
  fold files.
  assert (Hfiles : Forall (λ o, type o = M_FILE ∧ is_Some (db !! name o)) files).
  { apply Forall_forall. intros o Ho.
    apply elem_of_listing_recursive in Ho as [Ho _]; [| done].
    split; [by apply Hok in Ho as [_ ?] | by exists o]. }
  rewrite filter_all by (eapply Forall_impl; [exact Hfiles | by intros o [? _]]).
  rewrite visitAll_deleteVisitor;
    [| by apply listing_recursive_NoDup | exact Hfiles].
  cbn [rs_db deleteErrors deletedFiles app].
  by destruct files as [|file [|file' files']].
Qed.

(** C7. On a database of files where at least one name starts with the
    path, a recursive, non-quiet [remove] deletes the records that the
    recursive listing of the path holds and no other, resolves with their
    paths (the path itself when there is one, the array otherwise), and
    leaves a database whose recursive listing of the path is empty. *)
Theorem remove_recursive db path :
  store_ok db →
  (∃ key o, db !! key = Some o ∧ startsWith key path = true) →
  let files := listing localeCompare db path true in
  let db' := (remove localeCompare db path true false).2 in
  files ≠ [] ∧
  (∀ o, o ∈ files ↔ db !! name o = Some o ∧ startsWith (name o) path = true) ∧
  (remove localeCompare db path true false).1
  = Resolved (match name <$> files with
              | [file] => OnePath file
              | paths => Paths paths
              end) ∧
  (∀ key, db' !! key
          = if decide (key ∈ name <$> files) then None else db !! key) ∧
  listing localeCompare db' path true = [] ∧
  (∀ (S : Type) (σ : S),
      _list localeCompare db' path true None σ = (Resolved [], σ)).
Proof.
  intros Hok (key & o & Hkey & Hstart) files db'.
  assert (Hne : files ≠ []).
  { assert (o ∈ files) as Ho; [| by intros Heq; rewrite Heq in Ho;
                                    apply elem_of_nil in Ho].
    apply elem_of_listing_recursive; [done |].
    destruct (Hok _ _ Hkey) as [-> _]. done. }
  assert (Hdb' : ∀ key, db' !! key
                        = if decide (key ∈ name <$> files) then None
                          else db !! key).
  { intros k. subst db'. rewrite remove_recursive_eq by done.
    cbn [snd]. apply lookup_foldl_delete. }
  assert (Hok' : store_ok db').
  { intros k x. rewrite Hdb'. case_decide; [done | apply Hok]. }
  assert (Hempty : listing localeCompare db' path true = []).
  { apply elem_of_nil_inv. intros x Hx.
    apply elem_of_listing_recursive in Hx as [Hx Hxs]; [| done].
    rewrite Hdb' in Hx. case_decide as Hin; [done |].
    apply Hin, list_elem_of_fmap_2.
    by apply elem_of_listing_recursive. }
  refine (conj Hne (conj _ (conj _ (conj Hdb' (conj Hempty _))))).
  - intros x. by apply elem_of_listing_recursive.
  - rewrite remove_recursive_eq by done. fold files. cbn [fst].
    by destruct files as [|file [|file' files']].
  - intros S σ. by rewrite _list_no_visitor, Hempty.
Qed.
End RemoveRecursive.

(** The instance of [remove_recursive] for the path [a] over the files
    [a/x.txt], [a/y.txt] and [b.txt]. *)
Lemma remove_recursive_witness :
  let db := storeOf ["a/x.txt"; "a/y.txt"; "b.txt"] in
  let files := listing keyCompare db "a" true in
  let db' := (remove keyCompare db "a" true false).2 in
  files = [fileOf "a/x.txt" []; fileOf "a/y.txt" []] ∧
  files ≠ [] ∧
  (∀ o, o ∈ files ↔ db !! name o = Some o ∧ startsWith (name o) "a" = true) ∧
  (remove keyCompare db "a" true false).1
  = Resolved (match name <$> files with
              | [file] => OnePath file
              | paths => Paths paths
              end) ∧
  (∀ key, db' !! key
          = if decide (key ∈ name <$> files) then None else db !! key) ∧
  listing keyCompare db' "a" true = [] ∧
  (∀ (S : Type) (σ : S), _list keyCompare db' "a" true None σ = (Resolved [], σ)).
Proof.
  split; [reflexivity |].
  apply (remove_recursive keyCompare (storeOf ["a/x.txt"; "a/y.txt"; "b.txt"]) "a").
  - apply store_ok_storeOf.
  - exists "a/x.txt", (fileOf "a/x.txt" []). split; reflexivity.
Defined.

(** ** One-level listing without an exact match *)

Section OneLevel.
Variable localeCompare : string → string → Z.

(** Without a record stored under [pth], the one-level listing is the
    de-duplicated array of what the callback of [map] keeps. *)
Lemma listing_one_level db pth :
  store_ok db → db !! pth = None →
  listing localeCompare db pth false
  = firstOccurrences []
      (omap (entryOf pth false) (sort (byName localeCompare) (getAll db))).
Proof.
  intros Hok Hpth. unfold listing.
  pose proof (foundExact_missing localeCompare db pth false Hok Hpth) as Hfe.
  rewrite filtered_eq in *. cbn [fst snd] in *. by rewrite Hfe.
Qed.

Lemma elem_of_listing_one_level db pth e :
  store_ok db → db !! pth = None →
  e ∈ listing localeCompare db pth false →
  ∃ o, db !! name o = Some o ∧ type o = M_FILE ∧ entryOf pth false o = Some e.
Proof.
  intros Hok Hpth. rewrite listing_one_level by done.
  intros [(o & Ho & He)%list_elem_of_omap _]%firstOccurrences_elem_of.
  exists o. apply elem_of_sort in Ho.
  by destruct (store_ok_lookup _ _ Hok Ho).
Qed.

Lemma prefix_substring (p s : string) (k : nat) :
  String.prefix p s = true → String.length p ≤ k →
  String.prefix p (String.substring 0 k s) = true.
Proof.
  revert s k. induction p as [|c p IH]; intros s k Hp Hk.
  - by destruct (String.substring 0 k s).
  - destruct s as [|d s]; simpl in Hp; [done |].
    destruct (ascii_dec c d) as [->|]; [| done].
    destruct k as [|k]; simpl in Hk; [lia |]. simpl.
    destruct (ascii_dec d d); [| done]. apply IH; [done | lia].
Qed.

(** No separator is found in what comes before the first one. *)
Lemma index_prefix_none (sep : ascii) (s : string) (m k : nat) :
  String.index m (String sep "") s = Some k →
  String.index m (String sep "") (String.substring 0 k s) = None.
Proof.
  revert m k. induction s as [|c s IH]; intros m k H.
  - destruct m; simpl in H; done.
  - destruct m as [|m].
    + cbn [String.index] in H.
      destruct (String.prefix (String sep "") (String c s)) eqn:Hp.
      * injection H as <-. done.
      * destruct (String.index 0 (String sep "") s) as [j|] eqn:Hj; [| done].
        injection H as <-. simpl String.substring. cbn [String.index].
        assert (Hp' : String.prefix (String sep "")
                        (String c (String.substring 0 j s)) = false).
        { simpl in *. destruct (ascii_dec sep c); [| done].
          by destruct s. }
        rewrite Hp'. by rewrite (IH _ _ Hj).
    + cbn [String.index] in H.
      destruct (String.index m (String sep "") s) as [j|] eqn:Hj; [| done].
      injection H as <-. simpl String.substring. cbn [String.index].
      by rewrite (IH _ _ Hj).
Qed.

Lemma indexOf_truncated (s : string) (m k : nat) :
  indexOf s "/" m = Some k → indexOf (substring s 0 k) "/" m = None.
Proof. rewrite substring_0. apply index_prefix_none. Qed.

(** A record named by the cut of a deeper record is kept as a file. *)
Lemma entryOf_cut_name pth o nextSlash f :
  startsWith (name o) (normMatch pth) = true →
  indexOf (name o) "/" (String.length (normMatch pth) + 1) = Some nextSlash →
  name f = substring (name o) 0 nextSlash →
  entryOf pth false f = Some f.
Proof.
  intros Hstart Hidx Hname.
  pose proof (indexOf_slash_Some _ _ _ Hidx) as (Hle & _ & Hlen & _).
  rewrite <- (mapEntry_fst pth false f None), mapEntry_beyond.
  - by rewrite Hname, (indexOf_truncated _ _ _ Hidx).
  - rewrite Hname, substring_0. apply prefix_substring; [done | lia].
  - rewrite Hname, Hlen. lia.
Qed.

(** The first record of an array whose entry carries a given name. *)
Lemma first_with_name (f : IdbMetadata → option IdbMetadata) (n : string)
      (l : list IdbMetadata) y e0 :
  y ∈ l → f y = Some e0 → name e0 = n →
  ∃ pre x post e,
    l = pre ++ x :: post ∧
    Forall (λ z, ∀ e', f z = Some e' → name e' ≠ n) pre ∧
    f x = Some e ∧ name e = n.
Proof.
  intros Hy Hfy Hn. induction l as [|z l IH]; [by apply elem_of_nil in Hy |].
  destruct (f z) as [ez|] eqn:Hz.
  - destruct (decide (name ez = n)) as [Hez|Hez].
    + exists [], z, l, ez. by repeat split.
    + apply elem_of_cons in Hy as [->|Hy]; [congruence |].
      destruct (IH Hy) as (pre & x & post & e & -> & Hpre & Hx & He).
      exists (z :: pre), x, post, e. repeat split; [| done | done].
      constructor; [| done]. intros e' He'. congruence.
  - apply elem_of_cons in Hy as [->|Hy]; [congruence |].
    destruct (IH Hy) as (pre & x & post & e & -> & Hpre & Hx & He).
    exists (z :: pre), x, post, e. repeat split; [| done | done].
    constructor; [| done]. intros e' He'. congruence.
Qed.

(** Its entry is the one the de-duplication keeps for that name. *)
Lemma firstOccurrences_omap_first (f : IdbMetadata → option IdbMetadata)
      pre x post e :
  Forall (λ z, ∀ e', f z = Some e' → name e' ≠ name e) pre →
  f x = Some e →
  e ∈ firstOccurrences [] (omap f (pre ++ x :: post)).
Proof.
  intros Hpre Hx. rewrite omap_app. cbn [omap list_omap]. rewrite Hx.
  apply firstOccurrences_first; [apply not_elem_of_nil |].
  apply Forall_forall. intros z (y & Hy & Hz)%list_elem_of_omap.
  by eapply (proj1 (Forall_forall _ _) Hpre).
Qed.

Lemma NoDup_fmap_eq {A B : Type} (f : A → B) (l : list A) x y :
  NoDup (f <$> l) → x ∈ l → y ∈ l → f x = f y → x = y.
Proof.
  induction l as [|z l IH]; intros Hnd Hx Hy Heq;
    [by apply elem_of_nil in Hx |].
  rewrite fmap_cons in Hnd. apply NoDup_cons in Hnd as [Hz Hnd].
  apply elem_of_cons in Hx as [->|Hx]; apply elem_of_cons in Hy as [->|Hy].
  - done.
  - exfalso. apply Hz. rewrite Heq. by apply list_elem_of_fmap_2.
  - exfalso. apply Hz. rewrite <- Heq. by apply list_elem_of_fmap_2.
  - by apply IH.
Qed.

(** C2, as the code has it. When no record is stored under the path itself,
    the one-level listing has no two entries of the same name.  For every
    stored record that goes beyond the normalized prefix and has a separator
    at an index greater than the length of that prefix, it holds one entry
    named by the record's name cut just before the first such separator:
    the entry of the first record, in the sorted array, that gives this
    name.  That record is either a record cut to the name, and the entry is
    the directory made up for it, or the stored file of that very name, and
    the entry is this file.  So the entry is the directory when no file of
    that name is stored or when some record cut to the name is put strictly
    before the file by [localeCompare], and it is the file when
    [localeCompare] puts every record cut to the name strictly after it.
    Every directory entry arises in this way, and every file entry is a
    stored record that goes beyond the normalized prefix and has no such
    separator. *)
Theorem one_level_listing db pth :
  store_ok db → db !! pth = None →
  let N := String.length (normMatch pth) in
  let l := listing localeCompare db pth false in
  NoDup (name <$> l) ∧
  (∀ o nextSlash,
      db !! name o = Some o →
      startsWith (name o) (normMatch pth) = true →
      N < String.length (name o) →
      indexOf (name o) "/" (N + 1) = Some nextSlash →
      ∃ pre x post e,
        sort (byName localeCompare) (getAll db) = pre ++ x :: post ∧
        Forall (λ z, ∀ e', entryOf pth false z = Some e' →
                           name e' ≠ substring (name o) 0 nextSlash) pre ∧
        entryOf pth false x = Some e ∧
        name e = substring (name o) 0 nextSlash ∧
        e ∈ l ∧
        (∀ e', e' ∈ l → name e' = substring (name o) 0 nextSlash → e' = e) ∧
        ((e = mkDir (substring (name o) 0 nextSlash) ∧
          ∃ k, indexOf (name x) "/" (N + 1) = Some k ∧
               substring (name x) 0 k = substring (name o) 0 nextSlash) ∨
         (e = x ∧ db !! substring (name o) 0 nextSlash = Some x ∧
          type x = M_FILE))) ∧
  (∀ o nextSlash,
      db !! name o = Some o →
      startsWith (name o) (normMatch pth) = true →
      N < String.length (name o) →
      indexOf (name o) "/" (N + 1) = Some nextSlash →
      (db !! substring (name o) 0 nextSlash = None →
       mkDir (substring (name o) 0 nextSlash) ∈ l) ∧
      (consistentComparator localeCompare →
       (∀ f, db !! substring (name o) 0 nextSlash = Some f →
             (∀ o' k, db !! name o' = Some o' →
                      startsWith (name o') (normMatch pth) = true →
                      indexOf (name o') "/" (N + 1) = Some k →
                      substring (name o') 0 k = substring (name o) 0 nextSlash →
                      (0 < localeCompare (name o') (name f))%Z) →
             f ∈ l) ∧
       (∀ f o' k, db !! substring (name o) 0 nextSlash = Some f →
                  db !! name o' = Some o' →
                  startsWith (name o') (normMatch pth) = true →
                  indexOf (name o') "/" (N + 1) = Some k →
                  substring (name o') 0 k = substring (name o) 0 nextSlash →
                  (0 < localeCompare (name f) (name o'))%Z →
                  mkDir (substring (name o) 0 nextSlash) ∈ l))) ∧
  (∀ e, e ∈ l → type e = M_DIR →
        ∃ o nextSlash,
          db !! name o = Some o ∧
          startsWith (name o) (normMatch pth) = true ∧
          N < String.length (name o) ∧
          indexOf (name o) "/" (N + 1) = Some nextSlash ∧
          e = mkDir (substring (name o) 0 nextSlash)) ∧
  (∀ e, e ∈ l → type e = M_FILE →
        db !! name e = Some e ∧
        startsWith (name e) (normMatch pth) = true ∧
        N < String.length (name e) ∧
        indexOf (name e) "/" (N + 1) = None).
Proof.
  intros Hok Hpth N l. subst N.
  assert (Hnodup : NoDup (name <$> l)).
  { subst l. rewrite listing_one_level by done. apply firstOccurrences_NoDup. }
  assert (Hstored : ∀ z, z ∈ sort (byName localeCompare) (getAll db) →
                         db !! name z = Some z ∧ type z = M_FILE).
  { intros z Hz%elem_of_sort. by apply store_ok_lookup. }
  assert (Hsorted : ∀ z, db !! name z = Some z →
                         z ∈ sort (byName localeCompare) (getAll db)).
  { intros z Hz. apply elem_of_sort, elem_of_getAll. by exists (name z). }
  assert (Hfirst : ∀ o nextSlash,
      db !! name o = Some o →
      startsWith (name o) (normMatch pth) = true →
      String.length (normMatch pth) < String.length (name o) →
      indexOf (name o) "/" (String.length (normMatch pth) + 1) = Some nextSlash →
      ∃ pre x post e,
        sort (byName localeCompare) (getAll db) = pre ++ x :: post ∧
        Forall (λ z, ∀ e', entryOf pth false z = Some e' →
                           name e' ≠ substring (name o) 0 nextSlash) pre ∧
        entryOf pth false x = Some e ∧
        name e = substring (name o) 0 nextSlash ∧
        e ∈ l ∧
        (∀ e', e' ∈ l → name e' = substring (name o) 0 nextSlash → e' = e) ∧
        ((e = mkDir (substring (name o) 0 nextSlash) ∧
          ∃ k, indexOf (name x) "/" (String.length (normMatch pth) + 1) = Some k ∧
               substring (name x) 0 k = substring (name o) 0 nextSlash) ∨
         (e = x ∧ db !! substring (name o) 0 nextSlash = Some x ∧
          type x = M_FILE))).
  { intros o nextSlash Ho Hstart Hlen Hidx.
    assert (Hentry : entryOf pth false o
                     = Some (mkDir (substring (name o) 0 nextSlash))).
    { rewrite <- (mapEntry_fst pth false o None).
      by rewrite (mapEntry_beyond _ _ _ Hstart Hlen), Hidx. }
    destruct (first_with_name (entryOf pth false)
                (substring (name o) 0 nextSlash)
                (sort (byName localeCompare) (getAll db)) o _
                (Hsorted _ Ho) Hentry eq_refl)
      as (pre & x & post & e & Hsplit & Hpre & Hx & He).
    exists pre, x, post, e.
    assert (Hin : e ∈ l).
    { subst l. rewrite listing_one_level, Hsplit by done.
      apply firstOccurrences_omap_first; [by rewrite He | done]. }
    refine (conj Hsplit (conj Hpre (conj Hx (conj He (conj Hin (conj _ _)))))).
    - intros e' He' Hname. eapply (NoDup_fmap_eq name); [done..|]. congruence.
    - assert (Hxs : x ∈ sort (byName localeCompare) (getAll db))
        by (rewrite Hsplit, elem_of_app, elem_of_cons; tauto).
      destruct (Hstored _ Hxs) as [Hxdb Hxtype].
      apply entryOf_false_inv in Hx
        as [[Hn _]|(_ & _ & _ & [[_ ->]|(k & Hk & ->)])].
      + rewrite Hn in Hxdb. congruence.
      + right. rewrite <- He. done.
      + left. simpl in He. rewrite He. split; [done |]. by exists k. }
  refine (conj Hnodup (conj Hfirst (conj _ (conj _ _)))).
  - intros o nextSlash Ho Hstart Hlen Hidx.
    destruct (Hfirst o nextSlash Ho Hstart Hlen Hidx)
      as (pre & x & post & e & Hsplit & Hpre & Hx & He & Hin & _ & Hcase).
    assert (Hss : ∀ z, z ∈ post → consistentComparator localeCompare →
                       (localeCompare (name x) (name z) <= 0)%Z).
    { intros z Hz Hcmp.
      apply consistentComparator_byName in Hcmp as [Hasym Htrans].
      pose proof (sort_StronglySorted (byName localeCompare) Hasym Htrans
                    (getAll db)) as Hs.
      rewrite Hsplit in Hs.
      apply StronglySorted_app in Hs as (_ & _ & Hs).
      apply StronglySorted_cons in Hs as [Hs _].
      by apply (proj1 (Forall_forall _ _) Hs). }
    assert (Hafter : ∀ z ez, db !! name z = Some z →
                             entryOf pth false z = Some ez →
                             name ez = substring (name o) 0 nextSlash →
                             z = x ∨ z ∈ post).
    { intros z ez Hz Hez Hnz. pose proof (Hsorted _ Hz) as Hzs.
      rewrite Hsplit, elem_of_app, elem_of_cons in Hzs.
      destruct Hzs as [Hzs|[->|Hzs]]; [| by left | by right].
      exfalso. by eapply (proj1 (Forall_forall _ _) Hpre). }
    split.
    + intros Hnone. destruct Hcase as [[-> _]|(_ & Hsome & _)]; [done |].
      congruence.
    + intros Hcmp. split.
      * intros f Hf Hall. destruct Hcase as [[-> (k & Hk & Hcut)]|(-> & Hxn & _)].
        -- exfalso.
           assert (Hxs : x ∈ sort (byName localeCompare) (getAll db))
             by (rewrite Hsplit, elem_of_app, elem_of_cons; tauto).
           destruct (Hstored _ Hxs) as [Hxdb _].
           pose proof (entryOf_false_inv _ _ _ Hx)
             as [[Hn _]|(_ & Hxstart & _ & _)];
             [rewrite Hn in Hxdb; congruence |].
           pose proof (Hall x k Hxdb Hxstart Hk Hcut) as Hlt.
           assert (Hfname : name f = substring (name o) 0 nextSlash)
             by by apply Hok in Hf as [? _].
           destruct (Hafter f f) as [->|Hfpost].
           ++ by rewrite Hfname.
           ++ exact (entryOf_cut_name pth o nextSlash f Hstart Hidx Hfname).
           ++ done.
           ++ destruct Hcmp as [Hasym _]. pose proof (Hasym _ _ Hlt). lia.
           ++ pose proof (Hss f Hfpost Hcmp). lia.
        -- by assert (f = x) as -> by congruence.
      * intros f o' k Hf Ho' Ho's Hk Hcut Hlt.
        destruct Hcase as [[-> _]|(-> & Hxn & _)]; [done |].
        exfalso. assert (f = x) as -> by congruence.
        assert (Ho'len : String.length (normMatch pth) < String.length (name o')).
        { apply indexOf_slash_Some in Hk as (? & ? & _). lia. }
        destruct (Hafter o' (mkDir (substring (name o') 0 k))) as [->|Hpost].
        -- done.
        -- rewrite <- (mapEntry_fst pth false o' None).
           by rewrite (mapEntry_beyond _ _ _ Ho's Ho'len), Hk.
        -- done.
        -- destruct Hcmp as [Hasym _]. pose proof (Hasym _ _ Hlt). lia.
        -- pose proof (Hss o' Hpost Hcmp). lia.
  - intros e He Htype.
    destruct (elem_of_listing_one_level _ _ _ Hok Hpth He)
      as (o & Ho & Hfile & He').
    apply entryOf_false_inv in He'
      as [[_ ->]|(_ & Hstart & Hlen & [[_ ->]|(k & Hk & ->)])];
      [congruence | congruence |].
    by exists o, k.
  - intros e He Htype.
    destruct (elem_of_listing_one_level _ _ _ Hok Hpth He)
      as (o & Ho & Hfile & He').
    apply entryOf_false_inv in He'
      as [[Hname ->]|(_ & Hstart & Hlen & [[Hidx ->]|(k & Hk & ->)])].
    + rewrite Hname in Ho. congruence.
    + done.
    + done.
Qed.
End OneLevel.

(** The instance of [one_level_listing] for the path [a] over the files
    [a/b], [a/b/c] and [a/d/e]: the file [a/b] comes before [a/b/c] and is
    listed in place of the directory of that name; the directory [a/d] is
    listed. *)
Lemma one_level_listing_witness :
  listing keyCompare (storeOf ["a/b"; "a/b/c"; "a/d/e"]) "a" false
  = [fileOf "a/b" []; mkDir "a/d"] ∧
  fileOf "a/b" [] ∈ listing keyCompare (storeOf ["a/b"; "a/b/c"; "a/d/e"]) "a" false ∧
  mkDir "a/d" ∈ listing keyCompare (storeOf ["a/b"; "a/b/c"; "a/d/e"]) "a" false.
Proof.
  split; [reflexivity |].
  destruct (one_level_listing keyCompare (storeOf ["a/b"; "a/b/c"; "a/d/e"]) "a"
              (store_ok_storeOf _) eq_refl) as (_ & _ & Horder & _).
  split.
  - destruct (Horder (fileOf "a/b/c" []) 3) as [_ Hcmp]; try reflexivity.
    + vm_compute. lia.
    + destruct (Hcmp keyCompare_consistent) as [Hfile _].
      apply (Hfile (fileOf "a/b" [])); [reflexivity |].
      intros o' k Ho' _ Hk Hcut.
      assert (Ho'in : o' ∈ getAll (storeOf ["a/b"; "a/b/c"; "a/d/e"]))
        by (apply elem_of_getAll; by exists (name o')).
      let records := eval vm_compute in
        (getAll (storeOf ["a/b"; "a/b/c"; "a/d/e"])) in
      change (getAll (storeOf ["a/b"; "a/b/c"; "a/d/e"])) with records in Ho'in.
      repeat (apply elem_of_cons in Ho'in as [->|Ho'in]).
      * vm_compute in Hk. discriminate Hk.
      * reflexivity.
      * vm_compute in Hk. injection Hk as <-. vm_compute in Hcut.
        discriminate Hcut.
      * by apply elem_of_nil in Ho'in.
  - destruct (Horder (fileOf "a/d/e" []) 3) as [Hdir _]; try reflexivity.
    + vm_compute. lia.
    + by apply Hdir.
Defined.

(** C2, as it is worded, fails in three ways.  With the files [a] and
    [a/b/c], the listing of [a] is the file [a] alone: the exact match hides
    the directory [a/b].  With the files [a/b] and [a/b/c], the listing of
    [a] is the file [a/b] alone: the directory made up for [a/b/c] has the
    same name and comes second.  With the file [a//x], whose name is [a],
    a separator, and a further separator, the listing of [a] is that file
    itself. *)
Lemma one_level_listing_counterexample :
  listing keyCompare (storeOf ["a"; "a/b/c"]) "a" false = [fileOf "a" []] ∧
  indexOf "a/b/c" "/" (String.length (normMatch "a") + 1) = Some 3 ∧
  listing keyCompare (storeOf ["a/b"; "a/b/c"]) "a" false = [fileOf "a/b" []] ∧
  listing keyCompare (storeOf ["a//x"]) "a" false = [fileOf "a//x" []] ∧
  "a//x" = "a" +:+ "/" +:+ "/" +:+ "x" ∧
  ¬ (∃ e, e ∈ listing keyCompare (storeOf ["a"; "a/b/c"]) "a" false ∧
          type e = M_DIR) ∧
  ¬ (∃ e, e ∈ listing keyCompare (storeOf ["a/b"; "a/b/c"]) "a" false ∧
          type e = M_DIR).
Proof.
  assert (H1 : listing keyCompare (storeOf ["a"; "a/b/c"]) "a" false
               = [fileOf "a" []]) by (vm_compute; reflexivity).
  assert (H2 : listing keyCompare (storeOf ["a/b"; "a/b/c"]) "a" false
               = [fileOf "a/b" []]) by (vm_compute; reflexivity).
  assert (H3 : listing keyCompare (storeOf ["a//x"]) "a" false
               = [fileOf "a//x" []]) by (vm_compute; reflexivity).
  rewrite H1, H2, H3.
  split; [reflexivity |]. split; [reflexivity |]. split; [reflexivity |].
  split; [reflexivity |]. split; [reflexivity |]. split.
  - intros (e & He & Htype). apply list_elem_of_singleton in He. subst e.
    discriminate Htype.
  - intros (e & He & Htype). apply list_elem_of_singleton in He. subst e.
    discriminate Htype.
Qed.

(** ** A scenario *)

(** The files [a/x.txt], [a/y.txt] and [b.txt]: listing [a] gives the two
    files under it, listing the root gives the directory [a] and the file
    [b.txt], and removing [a] recursively leaves [b.txt] alone. *)
Example scenario_list_a :
  listing keyCompare (storeOf ["a/x.txt"; "a/y.txt"; "b.txt"]) "a" false
  = [fileOf "a/x.txt" []; fileOf "a/y.txt" []].
Proof. vm_compute. reflexivity. Qed.

Example scenario_list_root :
  listing keyCompare (storeOf ["a/x.txt"; "a/y.txt"; "b.txt"]) "" false
  = [mkDir "a"; fileOf "b.txt" []].
Proof. vm_compute. reflexivity. Qed.

Example scenario_remove_a :
  remove keyCompare (storeOf ["a/x.txt"; "a/y.txt"; "b.txt"]) "a" true false
  = (Resolved (Paths ["a/x.txt"; "a/y.txt"]), storeOf ["b.txt"]).
Proof. vm_compute. reflexivity. Qed.

(** A recursive [remove] goes by prefixes of names, not by path segments:
    removing [a] also removes the file [ab]. *)
Example scenario_remove_prefix :
  remove keyCompare (storeOf ["a/x.txt"; "ab"; "b.txt"]) "a" true false
  = (Resolved (Paths ["a/x.txt"; "ab"]), storeOf ["b.txt"]).
Proof. vm_compute. reflexivity. Qed.

(** A push-style source that fails leaves the promise of [write] unsettled
    and the database as it was. *)
Example scenario_write_stream_error :
  write 0 ∅ "p" (Readable [Data (Some [x01]%byte);
                            StreamError (MobilettoError "broken")] [])
  = (Pending, ∅).
Proof. reflexivity. Qed.

Example scenario_write_stream :
  write 7 ∅ "p" (Readable [Data (Some [x01]%byte); Data None;
                            Data (Some [x02; x03]%byte); End] [])
  = stored 7 ∅ "p" [ENum x01; ENum x02; ENum x03]%byte.
Proof. reflexivity. Qed.

(** * Further properties *)

(** ** [write], [metadata] and [read] together *)

Lemma chunkBytes_app chunks1 chunks2 :
  chunkBytes (chunks1 ++ chunks2) = chunkBytes chunks1 ++ chunkBytes chunks2.
Proof.
  unfold chunkBytes. by rewrite omap_app, concat_app, fmap_app.
Qed.

Lemma eventData_app events1 events2 :
  eventData (events1 ++ events2) = eventData events1 ++ eventData events2.
Proof.
  induction events1 as [|[data|e|] events1 IH]; [done |..];
    rewrite <- app_comm_cons; cbn [eventData]; rewrite IH; done.
Qed.

Lemma eventData_data chunks : eventData (Data <$> chunks) = chunks.
Proof.
  induction chunks as [|chunk chunks IH]; [done |].
  rewrite fmap_cons. cbn [eventData]. by rewrite IH.
Qed.

(** The data listener pushes every truthy datum of the run. *)
Lemma streamListeners_bytes events bytes promise :
  (streamListeners events bytes promise).2
  = bytes ++ chunkBytes (eventData events).
Proof.
  revert bytes promise.
  induction events as [|[[data|]|e|] events IH]; intros bytes promise;
    cbn [streamListeners eventData].
  - by rewrite app_nil_r.
  - rewrite IH, chunkBytes_cons_Some. unfold push. by rewrite <- app_assoc.
  - by rewrite IH, chunkBytes_cons_None.
  - apply IH.
  - apply IH.
Qed.

(** A settled promise of the handler stays as it is. *)
Lemma streamListeners_settled events bytes promise :
  promise ≠ Pending → (streamListeners events bytes promise).1 = promise.
Proof.
  revert bytes promise.
  induction events as [|[[data|]|e|] events IH]; intros bytes promise Hs;
    cbn [streamListeners]; [done | by apply IH | by apply IH | |];
    (rewrite IH; [| by destruct promise]); by destruct promise.
Qed.

Lemma streamListeners_data chunks events bytes promise :
  (streamListeners ((Data <$> chunks) ++ events) bytes promise).1
  = (streamListeners events (bytes ++ chunkBytes chunks) promise).1.
Proof.
  revert bytes. induction chunks as [|[chunk|] chunks IH]; intros bytes.
  - simpl. by rewrite app_nil_r.
  - rewrite fmap_cons, <- app_comm_cons. cbn [streamListeners].
    rewrite IH, chunkBytes_cons_Some. unfold push. by rewrite <- app_assoc.
  - rewrite fmap_cons, <- app_comm_cons. cbn [streamListeners].
    by rewrite IH, chunkBytes_cons_None.
Qed.

Lemma streamHandler_end chunks rest bytes :
  streamHandler ((Data <$> chunks) ++ End :: rest) bytes
  = (Resolved 0,
     bytes ++ chunkBytes chunks ++ chunkBytes (eventData rest)).
Proof.
  unfold streamHandler. apply injective_projections.
  - rewrite streamListeners_data. cbn [streamListeners settleOnce fst].
    by rewrite streamListeners_settled.
  - rewrite streamListeners_bytes, eventData_app, eventData_data.
    cbn [eventData snd]. by rewrite chunkBytes_app.
Qed.

Lemma streamHandler_error chunks e rest bytes :
  (streamHandler ((Data <$> chunks) ++ StreamError e :: rest) bytes).1
  = Rejected e.
Proof.
  unfold streamHandler. rewrite streamListeners_data.
  cbn [streamListeners settleOnce]. by rewrite streamListeners_settled.
Qed.

Lemma streamHandler_open chunks bytes :
  (streamHandler (Data <$> chunks) bytes).1 = Pending.
Proof.
  unfold streamHandler. rewrite <- (app_nil_r (Data <$> chunks)).
  by rewrite streamListeners_data.
Qed.

(** X1. A push-style source is written when it emits [end] before any
    [error]: the record holds every truthy datum that the data listener got
    before the code after the [await] went on, in the order of arrival,
    those that came after [end] included, and [write] resolves with the
    length of that array plus the data that came before the put request
    succeeded.  For a source that emits nothing after [end] this is the
    data emitted before [end].  When the source emits [error] before [end],
    or neither, the promise of [write] stays unsettled and nothing is
    stored. *)
Theorem write_stream now db path chunks :
  (∀ rest late,
      write now db path (Readable ((Data <$> chunks) ++ End :: rest) late)
      = (Resolved (length (chunkBytes chunks ++ chunkBytes (eventData rest))
                   + length (chunkBytes (eventData late))),
         <[path := writtenRecord now path
                     (chunkBytes chunks ++ chunkBytes (eventData rest))]> db)) ∧
  write now db path (Readable ((Data <$> chunks) ++ [End]) [])
  = stored now db path (chunkBytes chunks) ∧
  (∀ e rest late,
      write now db path
            (Readable ((Data <$> chunks) ++ StreamError e :: rest) late)
      = (Pending, db)) ∧
  (∀ late, write now db path (Readable (Data <$> chunks) late) = (Pending, db)).
Proof.
  assert (Hend : ∀ rest late,
      write now db path (Readable ((Data <$> chunks) ++ End :: rest) late)
      = (Resolved (length (chunkBytes chunks ++ chunkBytes (eventData rest))
                   + length (chunkBytes (eventData late))),
         <[path := writtenRecord now path
                     (chunkBytes chunks ++ chunkBytes (eventData rest))]> db)).
  { intros rest late. unfold write. rewrite streamHandler_end, app_nil_l.
    by rewrite streamListeners_bytes, length_app. }
  refine (conj Hend (conj _ (conj _ _))).
  - rewrite Hend. cbn [eventData]. unfold stored, writtenRecord, chunkBytes at 2 3.
    simpl. by rewrite !app_nil_r, Nat.add_0_r.
  - intros e rest late. unfold write.
    pose proof (streamHandler_error chunks e rest []) as H.
    destruct (streamHandler _ []) as [[]]; simpl in H; congruence.
  - intros late. unfold write. pose proof (streamHandler_open chunks []) as H.
    destruct (streamHandler _ []) as [[]]; simpl in H; congruence.
Qed.

(** What [write] does when it resolves: it stores the record made of the
    bytes it has collected, and resolves with their number and that of the
    late data. *)
Lemma write_resolved now db path source n :
  (write now db path source).1 = Resolved n →
  ∃ bytes, n = length bytes + length (lateData source) ∧
           ∀ db', write now db' path source
                  = (Resolved n, <[path := writtenRecord now path bytes]> db').
Proof.
  unfold write, lateData. destruct source as [events late|yields].
  - destruct (streamHandler events []) as [[k| |] bytes]; simpl; try done.
    intros [= <-]. exists bytes.
    rewrite streamListeners_bytes, length_app. done.
  - simpl. intros [= <-]. eexists. split; [by rewrite Nat.add_0_r | done].
Qed.

(** X2. After a [write] that resolves with [n], [metadata] of the path
    resolves with the name, the type [M_FILE], the time of the write and
    the size of what was stored, and without the bytes.  The size is [n]
    less the data that a push-style source emitted after the record was
    made: it is [n] for every pull-style source and for every push-style
    source that emits no such data.  The metadata of every other path is
    what it was. *)
Theorem metadata_after_write now db path source n :
  (write now db path source).1 = Resolved n →
  metadata (write now db path source).2 path
  = Resolved {| name := path; type := M_FILE; bytes := None;
                size := Some (n - length (lateData source));
                mtime := Some now |} ∧
  (lateData source = [] →
   metadata (write now db path source).2 path
   = Resolved {| name := path; type := M_FILE; bytes := None;
                 size := Some n; mtime := Some now |}) ∧
  (∀ other, other ≠ path →
            metadata (write now db path source).2 other = metadata db other).
Proof.
  intros (bytes & -> & Hw)%write_resolved. rewrite Hw.
  unfold metadata, writtenRecord. cbn [snd].
  refine (conj _ (conj _ _)).
  - rewrite lookup_insert_eq. simpl. do 3 f_equal. lia.
  - intros ->. rewrite lookup_insert_eq. simpl. do 3 f_equal. lia.
  - intros other Hne. by rewrite lookup_insert_ne.
Qed.

(** The instance of [metadata_after_write] for a file of three bytes. *)
Lemma metadata_after_write_witness :
  metadata (write 7 ∅ "a/b" (Generator [Some [x01; x02]; Some [x03]]%byte)).2
           "a/b"
  = Resolved {| name := "a/b"; type := M_FILE; bytes := None;
                size := Some 3; mtime := Some 7%Z |} ∧
  (∀ other, other ≠ "a/b" →
            metadata
              (write 7 ∅ "a/b" (Generator [Some [x01; x02]; Some [x03]]%byte)).2
              other
            = metadata ∅ other).
Proof.
  destruct (metadata_after_write 7 ∅ "a/b"
              (Generator [Some [x01; x02]; Some [x03]]%byte) 3)
    as (Hsize & _ & Hother).
  - reflexivity.
  - split; [exact Hsize | exact Hother].
Defined.

(** The value [write] resolves with is not always the size it has stored:
    a chunk that a push-style source emits after [end], once the record is
    made and before the request succeeds, is counted and not stored. *)
Example write_late_data :
  write 0 ∅ "p" (Readable [Data (Some [x01]%byte); End]
                          [Data (Some [x02]%byte)])
  = (Resolved 2, <["p" := writtenRecord 0 "p" [ENum x01]%byte]> ∅) ∧
  metadata (write 0 ∅ "p" (Readable [Data (Some [x01]%byte); End]
                                    [Data (Some [x02]%byte)])).2 "p"
  = Resolved {| name := "p"; type := M_FILE; bytes := None;
                size := Some 1; mtime := Some 0%Z |}.
Proof. split; reflexivity. Qed.

(** X3. A [write] that resolves replaces whatever an earlier [write] had
    stored under the path: the outcome is that of the later [write] alone.
    It leaves the records of all other paths as they were. *)
Theorem write_overwrites now1 now2 db path source1 source2 n :
  (write now2 db path source2).1 = Resolved n →
  write now2 (write now1 db path source1).2 path source2
  = write now2 db path source2 ∧
  (∀ other, other ≠ path →
            (write now2 db path source2).2 !! other = db !! other).
Proof.
  intros Hres. destruct (write_resolved _ _ _ _ _ Hres) as (bytes & _ & H2).
  split.
  - rewrite !H2. f_equal.
    destruct (write now1 db path source1) as [p1 db1] eqn:H1. cbn [snd].
    unfold write in H1. destruct source1 as [events late|yields].
    + destruct (streamHandler events []) as [[k| |] bs]; simpl in H1;
        injection H1 as <- <-; try done. apply insert_insert_eq.
    + simpl in H1. injection H1 as <- <-. apply insert_insert_eq.
  - rewrite H2. intros other Hne. cbn [snd]. by rewrite lookup_insert_ne.
Qed.

(** The instance of [write_overwrites] for two writes under [p]. *)
Lemma write_overwrites_witness :
  write 2 (write 1 ∅ "p" (Generator [Some [x01; x02]]%byte)).2 "p"
        (Generator [Some [x03]]%byte)
  = write 2 ∅ "p" (Generator [Some [x03]]%byte) ∧
  (∀ other, other ≠ "p" →
            (write 2 ∅ "p" (Generator [Some [x03]]%byte)).2 !! other
            = (∅ : Store) !! other).
Proof.
  apply (write_overwrites 1 2 ∅ "p" (Generator [Some [x01; x02]]%byte)
           (Generator [Some [x03]]%byte) 1).
  reflexivity.
Defined.

Section ReadOutcomes.
Variable utf8Encode : string → Buffer.
Variable stringToUint8 : string → byte.

(** The three ways through [readRequest.onsuccess]. *)
Lemma readRequest_onsuccess_cases result path endCallback calls n notFound :
  readRequest_onsuccess utf8Encode stringToUint8 result path endCallback
  = (calls, n, notFound) →
  (result = None ∧ calls = [] ∧ n = 0 ∧
   notFound = Some (MobilettoNotFoundError path)) ∨
  (result ≠ None ∧ notFound = None ∧
   ((calls = [] ∧ n = 0) ∨
    ∃ chunk, n = length chunk ∧
             calls = Callback chunk
                       :: (if endCallback then [EndCallback] else []))).
Proof.
  unfold readRequest_onsuccess. destruct result as [o|].
  - destruct (bytes o) as [[|e stored]|]; intros [= <- <- <-]; right;
      (split; [done |]); (split; [done |]); [by left | | by left].
    right. by eexists.
  - intros [= <- <- <-]. by left.
Qed.

(** X4. What [read] does on a store state, in a run that has the
    connection and in which the request and the transaction succeed.  With
    nothing stored under the path it makes no call and is rejected with
    [MobilettoNotFoundError(path)].  With a record stored under the path it
    either stays unsettled, or calls the callback once, with a buffer of at
    least one byte, then the end callback if there is one, and resolves
    with the length of that buffer.  When it resolves, the value is positive
    and is the length of the one buffer the callback was given. *)
Theorem read_outcomes db path endCallback :
  let '(calls, promise) :=
    read utf8Encode stringToUint8 db path endCallback in
  (db !! path = None →
   calls = [] ∧ promise = Rejected (MobilettoNotFoundError path)) ∧
  (∀ o, db !! path = Some o →
        promise = Pending ∨
        ∃ chunk, 0 < length chunk ∧ promise = Resolved (length chunk) ∧
                 calls = Callback chunk
                           :: (if endCallback then [EndCallback] else [])) ∧
  (∀ n, promise = Resolved n →
        0 < n ∧
        ∃ chunk, length chunk = n ∧
                 calls = Callback chunk
                           :: (if endCallback then [EndCallback] else [])).
Proof.
  unfold read.
  destruct (readRequest_onsuccess utf8Encode stringToUint8 (db !! path)
              path endCallback) as [[calls n] notFound] eqn:Hreq.
  unfold readTx_oncomplete.
  apply readRequest_onsuccess_cases in Hreq
    as [(-> & -> & -> & ->)|(Hsome & -> & [[-> ->]|(chunk & -> & ->)])].
  - simpl. refine (conj _ (conj _ _)); [done | | done].
    intros o Ho. congruence.
  - simpl. refine (conj _ (conj _ _)); [done | | done].
    intros o _. by left.
  - destruct (Nat.ltb_spec 0 (length chunk)) as [Hpos|Hzero].
    + refine (conj _ (conj _ _)); [done | |].
      * intros o _. right. by exists chunk.
      * intros n [= <-]. split; [done |]. by exists chunk.
    + refine (conj _ (conj _ _)); [done | | done].
      intros o _. by left.
Qed.

(** X5. What was written from buffers is read back unchanged when there is
    at least one byte.  For a pull-style source within its budget of falsy
    values, [write] resolves with the number of bytes.  For a push-style
    source that emits [end] before any [error], what is written is all the
    data its listener got before the code after the [await] went on, and
    [write] resolves with that number plus the late data.  In both cases
    [read] hands the written bytes over in one chunk, calls the end
    callback if there is one, and resolves with their number. *)
Theorem write_read_round_trip now db path content endCallback :
  content ≠ [] →
  (∀ yields,
      countNull yields ≤ 5 → concat (omap id yields) = content →
      (write now db path (Generator yields)).1 = Resolved (length content) ∧
      read utf8Encode stringToUint8 (write now db path (Generator yields)).2
           path endCallback
      = (Callback content :: (if endCallback then [EndCallback] else []),
         Resolved (length content))) ∧
  (∀ chunks rest late,
      concat (omap id (chunks ++ eventData rest)) = content →
      (write now db path
             (Readable ((Data <$> chunks) ++ End :: rest) late)).1
      = Resolved (length content + length (chunkBytes (eventData late))) ∧
      read utf8Encode stringToUint8
           (write now db path
                  (Readable ((Data <$> chunks) ++ End :: rest) late)).2
           path endCallback
      = (Callback content :: (if endCallback then [EndCallback] else []),
         Resolved (length content))).
Proof.
  intros Hne.
  assert (Hread : ∀ bytes,
             bytes = ENum <$> content →
             read utf8Encode stringToUint8
                  (<[path := writtenRecord now path bytes]> db)
                  path endCallback
             = (Callback content :: (if endCallback then [EndCallback] else []),
                Resolved (length content))).
  { intros bytes ->.
    eapply read_numbers; [apply lookup_insert_eq | done | done]. }
  split.
  - intros yields Hn Hcontent.
    rewrite write_generator, collected_within_budget by lia.
    unfold stored. cbn [fst snd].
    assert (Hbytes : chunkBytes yields = ENum <$> content)
      by (unfold chunkBytes; by rewrite <- Hcontent).
    split; [by rewrite Hbytes, length_fmap |]. by apply Hread.
  - intros chunks rest late Hcontent. unfold write.
    rewrite streamHandler_end, app_nil_l, streamListeners_bytes.
    cbn [fst snd].
    assert (Hbytes : chunkBytes chunks ++ chunkBytes (eventData rest)
                     = ENum <$> content).
    { rewrite <- chunkBytes_app. unfold chunkBytes. by rewrite <- Hcontent. }
    rewrite Hbytes. split; [by rewrite length_app, length_fmap |].
    by apply Hread.
Qed.
End ReadOutcomes.

(** The instance of [write_read_round_trip] for the bytes 1, 2, 3, pulled
    in two chunks with a falsy value in between. *)
Lemma write_read_round_trip_witness :
  (write 0 ∅ "p" (Generator [Some [x01; x02]; None; Some [x03]]%byte)).1
  = Resolved 3 ∧
  read (λ _, []) (λ _, x00%byte)
       (write 0 ∅ "p" (Generator [Some [x01; x02]; None; Some [x03]]%byte)).2
       "p" true
  = ([Callback [x01; x02; x03]%byte; EndCallback], Resolved 3).
Proof.
  destruct (write_read_round_trip (λ _, []) (λ _, x00%byte) 0 ∅ "p"
              [x01; x02; x03]%byte true) as [Hpull _].
  - discriminate.
  - apply (Hpull [Some [x01; x02]; None; Some [x03]]%byte).
    + vm_compute. lia.
    + reflexivity.
Defined.

(** ** Listings in general *)

Lemma visitAll_recordCalls (l calls : list IdbMetadata) :
  visitAll recordCalls l calls = (Resolved (), calls ++ l).
Proof.
  revert calls. induction l as [|x l IH]; intros calls; simpl.
  - by rewrite app_nil_r.
  - rewrite IH. by rewrite <- app_assoc.
Qed.

Lemma filter_StronglySorted {A : Type} (R : relation A) (P : A → Prop)
      `{∀ x, Decision (P x)} (l : list A) :
  StronglySorted R l → StronglySorted R (filter P l).
Proof.
  induction 1 as [|x l _ IH Hx]; [constructor |].
  destruct (decide (P x)).
  - rewrite filter_cons_True by done. constructor; [done |].
    apply Forall_forall. intros y [_ Hy]%list_elem_of_filter.
    by eapply Forall_forall in Hx.
  - by rewrite filter_cons_False.
Qed.

Section ListingsInGeneral.
Variable localeCompare : string → string → Z.

(** X6. Whatever the database holds, and in both modes, [_list] never
    resolves with two entries of the same name, and the name of every entry
    starts with the path asked for. *)
Theorem listing_names db pth recursive :
  NoDup (name <$> listing localeCompare db pth recursive) ∧
  (∀ e, e ∈ listing localeCompare db pth recursive →
        startsWith (name e) pth = true) ∧
  (∀ (S : Type) (visitor : option (Visitor S)) (σ : S) l,
      (_list localeCompare db pth recursive visitor σ).1 = Resolved l →
      NoDup (name <$> l) ∧ ∀ e, e ∈ l → startsWith (name e) pth = true).
Proof.
  assert (Hnodup : NoDup (name <$> listing localeCompare db pth recursive)).
  { unfold listing. rewrite filtered_eq.
    destruct (mapEntries pth recursive _ None).2 as [fe|], recursive;
      try apply firstOccurrences_NoDup.
    apply NoDup_singleton. }
  assert (Hkept : ∀ o e, entryOf pth recursive o = Some e →
                         startsWith (name e) pth = true).
  { intros o e He. destruct recursive.
    - rewrite entryOf_recursive in He.
      destruct (startsWith (name o) pth) eqn:Hs; [| done].
      by injection He as <-.
    - apply entryOf_false_inv in He
        as [[Hname ->]|(_ & Hstart & Hlen & [[_ ->]|(k & Hk & ->)])].
      + rewrite Hname. apply prefix_refl.
      + eapply startsWith_trans; [done | apply startsWith_normMatch].
      + apply indexOf_slash_Some in Hk as (Hle & _ & _ & _).
        simpl. rewrite substring_0. apply prefix_substring.
        * eapply startsWith_trans; [done | apply startsWith_normMatch].
        * pose proof (length_normMatch pth). lia. }
  assert (Hstart : ∀ e, e ∈ listing localeCompare db pth recursive →
                        startsWith (name e) pth = true).
  { intros e. unfold listing. rewrite filtered_eq.
    assert (Hfilt : e ∈ firstOccurrences []
                      (omap (entryOf pth recursive)
                            (sort (byName localeCompare) (getAll db))) →
                    startsWith (name e) pth = true).
    { intros [(o & _ & Ho)%list_elem_of_omap _]%firstOccurrences_elem_of.
      by eapply Hkept. }
    destruct (mapEntries pth recursive _ None).2 as [fe|] eqn:Hfe;
      destruct recursive; try done.
    intros ->%list_elem_of_singleton.
    apply mapEntries_snd_Some in Hfe as [|[_ Hname]]; [done |].
    rewrite Hname. apply prefix_refl. }
  refine (conj Hnodup (conj Hstart _)).
  intros S visitor σ l Hl. apply _list_resolved in Hl as ->. done.
Qed.

(** X7. On a database of files and for a consistent [localeCompare], the
    recursive listing of any path holds the stored records whose name
    starts with the path as a string (so [ab] is listed under [a]), each of
    them once, in the order of their names, and no directory entry. *)
Theorem recursive_listing db pth :
  store_ok db → consistentComparator localeCompare →
  let l := listing localeCompare db pth true in
  (∀ (S : Type) (σ : S),
      _list localeCompare db pth true None σ = (Resolved l, σ)) ∧
  (∀ o, o ∈ l ↔ db !! name o = Some o ∧ startsWith (name o) pth = true) ∧
  NoDup l ∧
  Forall (λ o, type o = M_FILE) l ∧
  StronglySorted (λ o1 o2, (localeCompare (name o1) (name o2) <= 0)%Z) l.
Proof.
  intros Hok Hcmp l. subst l.
  refine (conj _ (conj _ (conj _ (conj _ _)))).
  - intros S σ. apply _list_no_visitor.
  - intros o. by apply elem_of_listing_recursive.
  - eapply NoDup_fmap_1. by apply listing_recursive_NoDup.
  - apply Forall_forall. intros o Ho.
    apply elem_of_listing_recursive in Ho as [Ho _]; [| done].
    by apply Hok in Ho as [_ ?].
  - rewrite listing_recursive by done. apply filter_StronglySorted.
    apply consistentComparator_byName in Hcmp as [Hasym Htrans].
    by apply (sort_StronglySorted (byName localeCompare)).
Qed.

(** A one-level [_list] without an exact match visits the files of
    [listing]. *)
Lemma _list_one_level_visitor {S : Type} db pth (visitor : Visitor S) (σ : S) :
  store_ok db → db !! pth = None →
  _list localeCompare db pth false (Some visitor) σ
  = match visitAll visitor
            (filter (λ o, type o = M_FILE)
                    (listing localeCompare db pth false)) σ with
    | (Resolved _, σ') => (Resolved (listing localeCompare db pth false), σ')
    | (_, σ') => (Pending, σ')
    end.
Proof.
  intros Hok Hpth.
  pose proof (foundExact_missing localeCompare db pth false Hok Hpth) as Hfe.
  unfold _list, listing.
  destruct (filtered localeCompare (getAll db) pth false) as [f fe].
  simpl in Hfe. by subst fe.
Qed.

(** X8. The visitor is called on the file entries of the result, in the
    order of the result, and never on a directory entry: this holds for
    every recursive [_list], and for the one-level [_list] of a path under
    which no file is stored. *)
Theorem visitor_sees_files db pth :
  _list localeCompare db pth true (Some recordCalls) []
  = (Resolved (listing localeCompare db pth true),
     filter (λ o, type o = M_FILE) (listing localeCompare db pth true)) ∧
  (store_ok db → db !! pth = None →
   _list localeCompare db pth false (Some recordCalls) []
   = (Resolved (listing localeCompare db pth false),
      filter (λ o, type o = M_FILE) (listing localeCompare db pth false))).
Proof.
  split.
  - by rewrite _list_recursive_visitor, visitAll_recordCalls.
  - intros Hok Hpth.
    by rewrite _list_one_level_visitor, visitAll_recordCalls.
Qed.

(** X9. After a [write] that resolves, on a database of files, the
    one-level listing of the written path is the written record alone,
    whatever lies below the path.  The size of the record is the value [n]
    that [write] resolved with, less the data that a push-style source
    emitted after the record was made (none for a pull-style source). *)
Theorem list_after_write now db path source n :
  store_ok db → (write now db path source).1 = Resolved n →
  ∃ o, (write now db path source).2 !! path = Some o ∧
       name o = path ∧ size o = Some (n - length (lateData source)) ∧
       mtime o = Some now ∧
       listing localeCompare (write now db path source).2 path false = [o].
Proof.
  intros Hok Hres.
  pose proof (store_ok_write now db path source Hok) as Hok'.
  destruct (write_resolved _ _ _ _ _ Hres) as (bytes & -> & Hw).
  rewrite Hw in *. cbn [snd] in *.
  eexists. split; [apply lookup_insert_eq |].
  refine (conj eq_refl (conj _ (conj eq_refl _))).
  - simpl. f_equal. lia.
  - pose proof (foundExact_stored localeCompare _ path false _ Hok'
                  (lookup_insert_eq _ _ _)) as Hfe.
    unfold listing.
    destruct (filtered localeCompare _ path false) as [f fe].
    simpl in Hfe. by subst fe.
Qed.
End ListingsInGeneral.

(** The instance of [recursive_listing] for the path [a] over the files
    [b], [ab], [a/y] and [a/x]. *)
Lemma recursive_listing_witness :
  let db := storeOf ["b"; "ab"; "a/y"; "a/x"] in
  let l := listing keyCompare db "a" true in
  l = [fileOf "a/x" []; fileOf "a/y" []; fileOf "ab" []] ∧
  (∀ (S : Type) (σ : S), _list keyCompare db "a" true None σ = (Resolved l, σ)) ∧
  (∀ o, o ∈ l ↔ db !! name o = Some o ∧ startsWith (name o) "a" = true) ∧
  NoDup l ∧
  Forall (λ o, type o = M_FILE) l ∧
  StronglySorted (λ o1 o2, (keyCompare (name o1) (name o2) <= 0)%Z) l.
Proof.
  split; [reflexivity |].
  apply (recursive_listing keyCompare (storeOf ["b"; "ab"; "a/y"; "a/x"]) "a").
  - apply store_ok_storeOf.
  - apply keyCompare_consistent.
Defined.

(** The instance of [visitor_sees_files] for the root of the files
    [a/x.txt], [a/y.txt] and [b.txt]: the directory [a] is listed and not
    visited. *)
Lemma visitor_sees_files_witness :
  _list keyCompare (storeOf ["a/x.txt"; "a/y.txt"; "b.txt"]) "" false
        (Some recordCalls) []
  = (Resolved [mkDir "a"; fileOf "b.txt" []], [fileOf "b.txt" []]).
Proof.
  destruct (visitor_sees_files keyCompare
              (storeOf ["a/x.txt"; "a/y.txt"; "b.txt"]) "") as [_ Hone].
  rewrite Hone.
  - reflexivity.
  - apply store_ok_storeOf.
  - reflexivity.
Defined.

(** The instance of [list_after_write] for a write under [a] next to the
    file [a/b]. *)
Lemma list_after_write_witness :
  ∃ o, (write 5 (storeOf ["a/b"]) "a" (Generator [Some [x01]%byte])).2 !! "a"
       = Some o ∧
       name o = "a" ∧ size o = Some 1 ∧ mtime o = Some 5%Z ∧
       listing keyCompare
               (write 5 (storeOf ["a/b"]) "a" (Generator [Some [x01]%byte])).2
               "a" false = [o].
Proof.
  apply (list_after_write keyCompare 5 (storeOf ["a/b"]) "a"
           (Generator [Some [x01]%byte]) 1).
  - apply store_ok_storeOf.
  - reflexivity.
Defined.

(** ** [remove] in general *)

(** The visitor of [remove] takes records away and does nothing else to the
    database. *)
Lemma deleteVisitor_subseteq quiet file σ :
  rs_db (deleteVisitor quiet file σ).2 ⊆ rs_db σ.
Proof.
  unfold deleteVisitor.
  repeat case_match; cbn [snd rs_db]; try done; apply delete_subseteq.
Qed.

Lemma visitAll_subseteq quiet files σ :
  rs_db (visitAll (deleteVisitor quiet) files σ).2 ⊆ rs_db σ.
Proof.
  revert σ. induction files as [|file files IH]; intros σ; [done |].
  cbn [visitAll]. pose proof (deleteVisitor_subseteq quiet file σ) as Hsub.
  destruct (deleteVisitor quiet file σ) as [[[]| |] σ']; cbn [snd] in *;
    [| done | done].
  etrans; [apply IH | done].
Qed.

(** A visit that resolves notes no error. *)
Lemma deleteVisitor_resolved quiet file σ u :
  (deleteVisitor quiet file σ).1 = Resolved u →
  deleteErrors (deleteVisitor quiet file σ).2 = deleteErrors σ.
Proof.
  unfold deleteVisitor. by repeat case_match.
Qed.

Lemma visitAll_resolved quiet files σ u :
  (visitAll (deleteVisitor quiet) files σ).1 = Resolved u →
  deleteErrors (visitAll (deleteVisitor quiet) files σ).2 = deleteErrors σ.
Proof.
  revert σ. induction files as [|file files IH]; intros σ; [done |].
  cbn [visitAll].
  pose proof (deleteVisitor_resolved quiet file σ) as Hone.
  destruct (deleteVisitor quiet file σ) as [[[]| |] σ']; cbn [fst snd] in *;
    [| done | done].
  intros Hres. rewrite (IH _ Hres). by apply (Hone ()).
Qed.

(** A quiet visit resolves. *)
Lemma visitAll_quiet files σ :
  (visitAll (deleteVisitor true) files σ).1 = Resolved ().
Proof.
  revert σ. induction files as [|file files IH]; intros σ; [done |].
  cbn [visitAll].
  assert (Hone : (deleteVisitor true file σ).1 = Resolved ())
    by (unfold deleteVisitor; by repeat case_match).
  destruct (deleteVisitor true file σ) as [[[]| |] σ']; cbn [fst] in *;
    [apply IH | done | done].
Qed.

Section RemoveInGeneral.
Variable localeCompare : string → string → Z.

(** [_list] runs its visitor over [visitedEntries] and resolves with
    [listing] when no call fails. *)
Lemma _list_visits {S : Type} db pth recursive (visitor : Visitor S) (σ : S) :
  _list localeCompare db pth recursive (Some visitor) σ
  = match visitAll visitor
            (visitedEntries localeCompare db pth recursive) σ with
    | (Resolved _, σ') =>
        (Resolved (listing localeCompare db pth recursive), σ')
    | (_, σ') => (Pending, σ')
    end.
Proof.
  unfold _list, listing, visitedEntries.
  destruct (filtered localeCompare (getAll db) pth recursive) as [f [fe|]];
    destruct recursive; try done.
  cbn [visitAll]. by destruct (visitor fe σ) as [[[]| |] σ'].
Qed.

(** Nothing is visited when nothing is listed. *)
Lemma visitedEntries_nil db pth recursive :
  listing localeCompare db pth recursive = [] →
  visitedEntries localeCompare db pth recursive = [].
Proof.
  unfold listing, visitedEntries.
  destruct (filtered localeCompare (getAll db) pth recursive) as [f [fe|]];
    destruct recursive; try done; by intros ->.
Qed.

(** [remove] in terms of the visits. *)
Lemma remove_eq db path recursive quiet :
  remove localeCompare db path recursive quiet
  = match visitAll (deleteVisitor quiet)
            (visitedEntries localeCompare db path recursive)
            (mkRemoveState db [] []) with
    | (Resolved _, σ) =>
        match listing localeCompare db path recursive with
        | [] => (if quiet then Resolved (Paths [])
                 else Rejected (MobilettoNotFoundError path), rs_db σ)
        | _ =>
            match deleteErrors σ with
            | [] => (Resolved (removeValue (deletedFiles σ)), rs_db σ)
            | err :: _ => (Rejected err, rs_db σ)
            end
        end
    | (_, σ) => (Pending, rs_db σ)
    end.
Proof.
  unfold remove. rewrite _list_visits.
  destruct (visitAll _ _ _) as [[[]| |] σ]; try done.
  destruct (listing localeCompare db path recursive) as [|e l]; simpl;
    [by destruct quiet |].
  destruct (deleteErrors σ); [| done].
  by destruct (deletedFiles σ) as [|f [|f' fs]].
Qed.

(** X10. On every store state, a quiet [remove] that has the connection and
    whose requests and transactions succeed resolves.  When the listing of
    the path is empty it resolves with the empty array and leaves the
    database as it is. *)
Theorem remove_quiet_resolves db path recursive :
  ∃ value,
    (remove localeCompare db path recursive true).1 = Resolved value ∧
    (listing localeCompare db path recursive = [] →
     value = Paths [] ∧
     (remove localeCompare db path recursive true).2 = db).
Proof.
  rewrite remove_eq.
  destruct (listing localeCompare db path recursive) as [|x l] eqn:Hl.
  - rewrite (visitedEntries_nil _ _ _ Hl). cbn [visitAll rs_db fst snd].
    by eexists.
  - pose proof (visitAll_quiet (visitedEntries localeCompare db path recursive)
                  (mkRemoveState db [] [])) as Hres.
    pose proof (visitAll_resolved true
                  (visitedEntries localeCompare db path recursive)
                  (mkRemoveState db [] []) () Hres) as Herr.
    destruct (visitAll _ _ _) as [[[]| |] σ]; cbn [fst snd] in *; try done.
    simpl in Herr. rewrite Herr. by eexists.
Qed.

(** X11. [remove] only deletes: every record of the database it leaves was
    there before, under the same key, whatever the outcome. *)
Theorem remove_only_deletes db path recursive quiet :
  (remove localeCompare db path recursive quiet).2 ⊆ db ∧
  (∀ key o, (remove localeCompare db path recursive quiet).2 !! key = Some o →
            db !! key = Some o).
Proof.
  assert (Hsub : (remove localeCompare db path recursive quiet).2 ⊆ db).
  { rewrite remove_eq.
    pose proof (visitAll_subseteq quiet
                  (visitedEntries localeCompare db path recursive)
                  (mkRemoveState db [] [])) as Hsub.
    destruct (visitAll _ _ _) as [[[]| |] σ]; cbn [snd rs_db] in *; try done.
    destruct (listing localeCompare db path recursive); [by destruct quiet |].
    by destruct (deleteErrors σ). }
  split; [done |]. intros key o Hkey. by eapply lookup_weaken.
Qed.

(** X12. What [remove] does with the errors of single deletions, in a run
    that has the connection and in which the requests and transactions
    succeed.  When the listing of the path is empty, [remove] leaves the
    database as it is; it resolves with the empty array if quiet and is
    rejected with [MobilettoNotFoundError(path)] otherwise.  When the
    listing is not empty, [remove] resolves or, if it is not quiet, stays
    unsettled: the error that a single deletion notes in [deleteErrors]
    also rejects the visitor, which leaves [_list] unsettled, so that
    [remove] is not rejected with it. *)
Theorem remove_rejected db path recursive quiet :
  (listing localeCompare db path recursive = [] →
   remove localeCompare db path recursive quiet
   = (if quiet then Resolved (Paths [])
      else Rejected (MobilettoNotFoundError path), db)) ∧
  (listing localeCompare db path recursive ≠ [] →
   (∃ value,
       (remove localeCompare db path recursive quiet).1 = Resolved value) ∨
   ((remove localeCompare db path recursive quiet).1 = Pending ∧
    quiet = false)).
Proof.
  rewrite remove_eq. split.
  - intros Hl. rewrite Hl, (visitedEntries_nil _ _ _ Hl).
    by cbn [visitAll rs_db fst snd].
  - intros Hl.
    pose proof (visitAll_resolved quiet
                  (visitedEntries localeCompare db path recursive)
                  (mkRemoveState db [] [])) as Herr.
    pose proof (visitAll_quiet
                  (visitedEntries localeCompare db path recursive)
                  (mkRemoveState db [] [])) as Hquiet.
    destruct (visitAll (deleteVisitor quiet) _ _) as [[[]| |] σ] eqn:Hv;
      cbn [fst snd] in *.
    + destruct (listing localeCompare db path recursive); [done |].
      rewrite (Herr () eq_refl). left. by eexists.
    + right. split; [done |]. destruct quiet; [| done].
      rewrite Hv in Hquiet. done.
    + right. split; [done |]. destruct quiet; [| done].
      rewrite Hv in Hquiet. done.
Qed.
End RemoveInGeneral.

(** The instance of [remove_rejected] for the path [missing], which lists
    nothing, and for the path [a], which lists one file. *)
Lemma remove_rejected_witness :
  remove keyCompare (storeOf ["a/x.txt"]) "missing" true false
  = (Rejected (MobilettoNotFoundError "missing"), storeOf ["a/x.txt"]) ∧
  ((∃ value, (remove keyCompare (storeOf ["a/x.txt"]) "a" true false).1
             = Resolved value) ∨
   ((remove keyCompare (storeOf ["a/x.txt"]) "a" true false).1 = Pending ∧
    false = false)).
Proof.
  split.
  - apply (remove_rejected keyCompare (storeOf ["a/x.txt"]) "missing" true
             false).
    reflexivity.
  - apply (remove_rejected keyCompare (storeOf ["a/x.txt"]) "a" true false).
    vm_compute. discriminate.
Defined.

(** ** [remove] on a database of files *)

Section RemoveFiles.
Variable localeCompare : string → string → Z.

Lemma listing_NoDup_names db pth recursive :
  NoDup (name <$> listing localeCompare db pth recursive).
Proof.
  unfold listing. rewrite filtered_eq.
  destruct (mapEntries pth recursive _ None).2 as [fe|], recursive;
    try apply firstOccurrences_NoDup.
  apply NoDup_singleton.
Qed.

(** The file entries of a listing are stored records. *)
Lemma listing_file_stored db pth recursive e :
  store_ok db → e ∈ listing localeCompare db pth recursive →
  type e = M_FILE → db !! name e = Some e.
Proof.
  intros Hok He Htype.
  assert (Hsorted : ∀ o, o ∈ sort (byName localeCompare) (getAll db) →
                         db !! name o = Some o).
  { intros o Ho%elem_of_sort. by apply (store_ok_lookup _ _ Hok) in Ho as [? _]. }
  assert (Hfilt : e ∈ firstOccurrences []
                    (omap (entryOf pth recursive)
                          (sort (byName localeCompare) (getAll db))) →
                  db !! name e = Some e).
  { intros [(o & Ho & Hoe)%list_elem_of_omap _]%firstOccurrences_elem_of.
    destruct recursive.
    - rewrite entryOf_recursive in Hoe.
      destruct (startsWith (name o) pth); [| done].
      injection Hoe as <-. by apply Hsorted.
    - apply entryOf_false_inv in Hoe
        as [[_ ->]|(_ & _ & _ & [[_ ->]|(k & _ & ->)])];
        [by apply Hsorted | by apply Hsorted | done]. }
  revert He. unfold listing. rewrite filtered_eq.
  destruct (mapEntries pth recursive _ None).2 as [fe|] eqn:Hfe;
    destruct recursive; try done.
  intros ->%list_elem_of_singleton.
  apply mapEntries_snd_Some in Hfe as [|[Hin _]]; [done |].
  by apply Hsorted.
Qed.

(** On a database of files the visitor is called on the file entries of the
    listing. *)
Lemma visitedEntries_files db pth recursive :
  store_ok db →
  visitedEntries localeCompare db pth recursive
  = filter (λ o, type o = M_FILE) (listing localeCompare db pth recursive).
Proof.
  intros Hok. unfold visitedEntries, listing.
  destruct (filtered localeCompare (getAll db) pth recursive) as [f fe] eqn:Hf.
  destruct fe as [fe|], recursive; try done.
  rewrite filter_cons_True, filter_nil; [done |].
  apply (f_equal snd) in Hf. rewrite filtered_eq in Hf. cbn [snd] in Hf.
  apply mapEntries_snd_Some in Hf as [|[Hin%elem_of_sort _]]; [done |].
  by apply (store_ok_lookup _ _ Hok) in Hin as [_ ?].
Qed.

(** What [remove] does on a database of files. *)
Lemma remove_files_eq db path recursive quiet :
  store_ok db →
  remove localeCompare db path recursive quiet
  = (match listing localeCompare db path recursive with
     | [] => if quiet then Resolved (Paths [])
             else Rejected (MobilettoNotFoundError path)
     | _ => Resolved (removeValue
                        (name <$> visitedEntries localeCompare db path recursive))
     end,
     foldl (λ d o, delete (name o) d) db
           (visitedEntries localeCompare db path recursive)).
Proof.
  intros Hok. rewrite remove_eq.
  rewrite visitAll_deleteVisitor.
  - cbn [rs_db deleteErrors deletedFiles app].
    destruct (listing localeCompare db path recursive) eqn:Hl; [| done].
    by rewrite (visitedEntries_nil _ _ _ _ Hl).
  - rewrite visitedEntries_files by done.
    eapply sublist_NoDup; [apply listing_NoDup_names |].
    apply fmap_sublist, sublist_filter.
  - rewrite visitedEntries_files by done. apply Forall_forall.
    intros o [Htype Ho]%list_elem_of_filter. split; [done |].
    exists o. by eapply listing_file_stored.
Qed.

(** X13. What [remove] does on a database of files, in a run that has the
    connection and in which the requests and transactions succeed.  When
    the listing of the path is empty it is rejected with
    [MobilettoNotFoundError(path)], or resolves with the empty array if
    quiet, and deletes nothing.  Otherwise it resolves with the paths of the
    file entries of the listing
    (the path itself when there is one, the array otherwise, which is empty
    when the listing holds directories only), and the database afterwards
    is the former one without the records of these paths. *)
Theorem remove_on_files db path recursive quiet :
  store_ok db →
  let entries := listing localeCompare db path recursive in
  let files := filter (λ o, type o = M_FILE) entries in
  (remove localeCompare db path recursive quiet).1
  = (match entries with
     | [] => if quiet then Resolved (Paths [])
             else Rejected (MobilettoNotFoundError path)
     | _ => Resolved (removeValue (name <$> files))
     end) ∧
  (∀ key, (remove localeCompare db path recursive quiet).2 !! key
          = if decide (key ∈ name <$> files) then None else db !! key) ∧
  (∀ o, o ∈ files → db !! name o = Some o).
Proof.
  intros Hok entries files. subst entries files.
  rewrite remove_files_eq, visitedEntries_files by done. cbn [fst snd].
  refine (conj eq_refl (conj _ _)).
  - intros key. apply lookup_foldl_delete.
  - intros o [Htype Ho]%list_elem_of_filter. by eapply listing_file_stored.
Qed.

(** X14. Removing, without recursion, a path under which a file is stored
    deletes that file and nothing else, even when other records have the
    path as a prefix, and resolves with the path; afterwards [read] and
    [metadata] of the path are rejected with
    [MobilettoNotFoundError(path)]. *)
Theorem remove_exact_file utf8Encode stringToUint8 db path o quiet :
  store_ok db → db !! path = Some o →
  remove localeCompare db path false quiet
  = (Resolved (OnePath path), delete path db) ∧
  (∀ endCallback,
      read utf8Encode stringToUint8
           (remove localeCompare db path false quiet).2 path endCallback
      = ([], Rejected (MobilettoNotFoundError path))) ∧
  metadata (remove localeCompare db path false quiet).2 path
  = Rejected (MobilettoNotFoundError path).
Proof.
  intros Hok Hpath.
  assert (Hvisited : visitedEntries localeCompare db path false = [o]).
  { unfold visitedEntries.
    pose proof (foundExact_stored localeCompare db path false o Hok Hpath).
    destruct (filtered localeCompare (getAll db) path false) as [f fe].
    simpl in *. by subst fe. }
  assert (Hlisting : listing localeCompare db path false = [o]).
  { unfold listing.
    pose proof (foundExact_stored localeCompare db path false o Hok Hpath).
    destruct (filtered localeCompare (getAll db) path false) as [f fe].
    simpl in *. by subst fe. }
  assert (Hremove : remove localeCompare db path false quiet
                    = (Resolved (OnePath path), delete path db)).
  { rewrite remove_files_eq, Hvisited, Hlisting by done.
    destruct (Hok _ _ Hpath) as [Hname _]. simpl. by rewrite Hname. }
  rewrite Hremove. cbn [snd]. refine (conj eq_refl (conj _ _)).
  - intros endCallback. unfold read. by rewrite lookup_delete_eq.
  - unfold metadata. by rewrite lookup_delete_eq.
Qed.

(** X15. Removing, without recursion, a path under which nothing is stored
    leaves every file in a subdirectory of the path in place: a record that
    goes beyond the normalized prefix and has a separator at an index
    greater than the length of that prefix is still there afterwards. *)
Theorem remove_keeps_nested db path quiet o nextSlash :
  store_ok db → db !! path = None →
  db !! name o = Some o →
  indexOf (name o) "/" (String.length (normMatch path) + 1) = Some nextSlash →
  (remove localeCompare db path false quiet).2 !! name o = Some o.
Proof.
  intros Hok Hpath Ho Hidx.
  rewrite remove_files_eq by done. cbn [snd].
  rewrite lookup_foldl_delete, visitedEntries_files by done.
  rewrite decide_False; [done |].
  intros (e & Hname & [Htype He]%list_elem_of_filter)%list_elem_of_fmap.
  destruct (elem_of_listing_one_level localeCompare _ _ _ Hok Hpath He)
    as (o' & Ho' & _ & He').
  apply entryOf_false_inv in He'
    as [[Hn ->]|(_ & _ & _ & [[Hnone ->]|(k & _ & ->)])].
  - rewrite Hn in Ho'. congruence.
  - rewrite <- Hname in Hnone. congruence.
  - done.
Qed.

(** X16. Starting from a new database, any sequence of [write] and [remove]
    operations, whatever their outcomes, leaves a database of files: every
    record is stored under its own name and has the type [M_FILE], so no
    two records have the same name and no directory is ever stored. *)
Theorem history_store_ok (ops : list Operation) :
  store_ok (history localeCompare ops) ∧
  NoDup (name <$> getAll (history localeCompare ops)) ∧
  Forall (λ o, type o = M_FILE) (getAll (history localeCompare ops)).
Proof.
  assert (Hok : store_ok (history localeCompare ops)).
  { unfold history. induction ops as [|op ops IH] using rev_ind.
    - apply store_ok_empty.
    - rewrite foldl_app. cbn [foldl]. destruct op as [now path source|path r q].
      + by apply store_ok_write.
      + by apply store_ok_remove. }
  refine (conj Hok (conj _ _)).
  - by apply getAll_NoDup_names.
  - apply Forall_forall. intros o Ho.
    by apply (store_ok_lookup _ _ Hok) in Ho as [_ ?].
Qed.
End RemoveFiles.

(** The instance of [remove_on_files] for the one-level removal of [a] over
    the files [a/x], [a/b/c] and [b]: the file [a/x] goes, the directory
    [a/b] stays. *)
Lemma remove_on_files_witness :
  let db := storeOf ["a/x"; "a/b/c"; "b"] in
  let entries := listing keyCompare db "a" false in
  let files := filter (λ o, type o = M_FILE) entries in
  entries = [mkDir "a/b"; fileOf "a/x" []] ∧
  (remove keyCompare db "a" false false).1
  = (match entries with
     | [] => Rejected (MobilettoNotFoundError "a")
     | _ => Resolved (removeValue (name <$> files))
     end) ∧
  (∀ key, (remove keyCompare db "a" false false).2 !! key
          = if decide (key ∈ name <$> files) then None else db !! key) ∧
  (∀ o, o ∈ files → db !! name o = Some o).
Proof.
  split; [reflexivity |].
  apply (remove_on_files keyCompare (storeOf ["a/x"; "a/b/c"; "b"]) "a"
           false false).
  apply store_ok_storeOf.
Defined.

(** The instance of [remove_exact_file] for the file [a] stored next to
    [a/b] and [ab]. *)
Lemma remove_exact_file_witness :
  remove keyCompare (storeOf ["a"; "a/b"; "ab"]) "a" false false
  = (Resolved (OnePath "a"), delete "a" (storeOf ["a"; "a/b"; "ab"])) ∧
  (∀ endCallback,
      read (λ _, []) (λ _, x00%byte)
           (remove keyCompare (storeOf ["a"; "a/b"; "ab"]) "a" false false).2
           "a" endCallback
      = ([], Rejected (MobilettoNotFoundError "a"))) ∧
  metadata (remove keyCompare (storeOf ["a"; "a/b"; "ab"]) "a" false false).2 "a"
  = Rejected (MobilettoNotFoundError "a").
Proof.
  apply (remove_exact_file keyCompare (λ _, []) (λ _, x00%byte)
           (storeOf ["a"; "a/b"; "ab"]) "a" (fileOf "a" []) false).
  - apply store_ok_storeOf.
  - reflexivity.
Defined.

(** The instance of [remove_keeps_nested] for the file [a/b/c] when [a] is
    removed without recursion. *)
Lemma remove_keeps_nested_witness :
  (remove keyCompare (storeOf ["a/x"; "a/b/c"]) "a" false false).2 !! "a/b/c"
  = Some (fileOf "a/b/c" []).
Proof.
  apply (remove_keeps_nested keyCompare (storeOf ["a/x"; "a/b/c"]) "a" false
           (fileOf "a/b/c" []) 3).
  - apply store_ok_storeOf.
  - reflexivity.
  - reflexivity.
  - reflexivity.
Defined.

(** ** The database handle and the factory *)

Section HandleFacts.
Context {IDBDatabase : Type}.
Implicit Types (st : OpenState IDBDatabase) (event : OpenEvent IDBDatabase)
         (events : list (OpenEvent IDBDatabase)) (d : IDBDatabase).

(** A settled promise stays as it is. *)
Lemma openHandler_settled st event :
  os_promise st ≠ Unsettled →
  os_promise (openHandler st event) = os_promise st.
Proof.
  intros Hs. destruct st as [odb rs [v|r|]]; [| | done];
    destruct event as [|[result|]| |]; simpl; try done; by destruct odb.
Qed.

Lemma openRequest_settled st events :
  os_promise st ≠ Unsettled →
  os_promise (foldl openHandler st events) = os_promise st.
Proof.
  revert st. induction events as [|event events IH]; intros st Hs; [done |].
  cbn [foldl]. rewrite IH; rewrite openHandler_settled; done.
Qed.

(** The promise is resolved by [onsuccess] only, with the connection that
    [onupgradeneeded] has put into [db]. *)
Lemma openHandler_fulfilled st event d :
  os_promise (openHandler st event) = Fulfilled d →
  os_promise st = Fulfilled d ∨ (event = OnSuccess ∧ os_db st = Some d).
Proof.
  destruct st as [odb rs [v|r|]], event as [|[result|]| |], odb as [d'|];
    simpl; intros H; try done; try by left.
  injection H as ->. by right.
Qed.

Lemma openHandler_db st event d :
  os_db (openHandler st event) = Some d →
  os_db st = Some d ∨ event = OnUpgradeNeeded (Some d).
Proof.
  destruct event as [|[result|]| |]; simpl; try by left.
  - intros [= ->]. by right.
  - destruct (os_db st) eqn:Hdb; simpl; [| rewrite Hdb]; by left.
Qed.

Lemma foldl_openHandler_fulfilled events st d :
  os_promise (foldl openHandler st events) = Fulfilled d →
  os_promise st = Fulfilled d ∨
  ((os_db st = Some d ∨ OnUpgradeNeeded (Some d) ∈ events) ∧
   OnSuccess ∈ events).
Proof.
  revert st. induction events as [|event events IH]; intros st H; [by left |].
  cbn [foldl] in H. apply IH in H as [H|[[H|H] Hs]].
  - apply openHandler_fulfilled in H as [H|[-> H]]; [by left |].
    right. split; [by left | by left].
  - right. split; [| by right].
    apply openHandler_db in H as [H| ->]; [by left | right; by left].
  - right. split; [right; by right | by right].
Qed.

(** X17. The promise of the connection is resolved only when the open
    request has fired [upgradeneeded] with that connection and then
    [success].  A request that goes through the upgrade and succeeds gives
    the connection; a request that succeeds without an upgrade, as for a
    database that already exists at this version, is rejected with
    [indexedDB.open failed: db was not initialized]. *)
Theorem open_request_outcomes :
  (∀ events d,
      os_promise (openRequest events) = Fulfilled d →
      OnUpgradeNeeded (Some d) ∈ events ∧ OnSuccess ∈ events) ∧
  (∀ d events,
      os_promise (openRequest (OnUpgradeNeeded (Some d) :: OnSuccess :: events))
      = Fulfilled d) ∧
  (∀ events,
      os_promise (openRequest (@OnSuccess IDBDatabase :: events))
      = Failed (ReasonText "indexedDB.open failed: db was not initialized")).
Proof.
  refine (conj _ (conj _ _)).
  - intros events d H. unfold openRequest in H.
    apply foldl_openHandler_fulfilled in H as [H|[[H|H] Hs]]; done.
  - intros d events. unfold openRequest. cbn [foldl].
    by rewrite openRequest_settled.
  - intros events. unfold openRequest. cbn [foldl].
    by rewrite openRequest_settled.
Qed.

(** X18. The factory checks its arguments before it builds a client: an
    empty key gives the error [indexeddb.storageClient: key is required],
    missing options or a missing [indexedDB] give
    [indexeddb.storageClient: opts.indexedDB is required], and the checks of
    the constructor never fire.  The client it returns has opened the
    database of that key at the schema version 1, and [mdb] settles as the
    promise of that request does. *)
Theorem storageClient_outcomes (key : string) (secret : option string)
        (opts : option (Options IDBDatabase)) :
  match storageClient key secret opts with
  | inl e =>
      (key = "" ∧
       e = MobilettoError "indexeddb.storageClient: key is required") ∨
      (key ≠ "" ∧
       (∀ factory, opts ≠ Some (mkOptions (Some factory))) ∧
       e = MobilettoError "indexeddb.storageClient: opts.indexedDB is required")
  | inr client =>
      key ≠ "" ∧
      opts = Some (mkOptions (Some (indexedDB client))) ∧
      dbPromise client = os_promise (openRequest (indexedDB client key 1)) ∧
      mdb client = dbPromise client
  end.
Proof.
  unfold storageClient, newStorageClient.
  destruct (String.eqb_spec key "") as [->|Hkey]; [by left |].
  destruct opts as [[[factory|]]|].
  - simpl. repeat split; [done |]. unfold mdb. simpl.
    by destruct (os_promise _).
  - right. repeat split; try done.
  - right. repeat split; try done.
Qed.
End HandleFacts.

(** The instance of [open_request_outcomes] for a request that goes through
    the upgrade. *)
Lemma open_request_outcomes_witness :
  @OnUpgradeNeeded nat (Some 7) ∈ [OnUpgradeNeeded (Some 7); OnSuccess] ∧
  @OnSuccess nat ∈ [OnUpgradeNeeded (Some 7); OnSuccess].
Proof.
  destruct (@open_request_outcomes nat) as [Hneeds _].
  apply (Hneeds [OnUpgradeNeeded (Some 7); OnSuccess] 7). reflexivity.
Defined.
